(** * ImplicitConditionalBarriers: the pass that repairs conditional barriers

    A shallow embedding of [lib/llvmopencl/ImplicitConditionalBarriers.cc]
    (pocl) and the properties of its two member functions,
    [firstNonBackedgePredecessor] and [runOnFunction].

    Basic blocks are named by numbers (the C++ code uses [BasicBlock*]; a
    pointer to a block of the function is always valid, so the block table is
    a total function).  A null pointer is [None]; an operation that the C++
    code applies to a null pointer or to a past-the-end iterator is a
    [Fault].  The only unbounded loop, the upward trace of [runOnFunction],
    takes fuel. *)

From Stdlib Require Import List Arith Bool Lia.
Import ListNotations.

Set Implicit Arguments.

(** ** The IR, as far as the pass looks at it *)

Definition block_id := nat.

Inductive instruction : Type :=
| PHINode (v : nat)
| BarrierCall
| Other (v : nat)
| Terminator (succs : list block_id).

Record Function : Type := mkFunction {
  layout : list block_id;                 (* F.begin() .. F.end() *)
  body : block_id -> list instruction;    (* the instruction list of a block *)
  preds : block_id -> list block_id       (* pred_begin(bb) .. pred_end(bb) *)
}.

(** [F.getEntryBlock()] is the front of the block list. *)
Definition getEntryBlock (F : Function) : block_id := hd 0 (layout F).

(** ** Results of fallible code *)

Inductive fault : Type :=
| PastTheEnd      (* [*I] evaluated with [I == pred_end(bb)] *)
| NullPointer.    (* [isa<>], [getTerminator], ... applied to NULL *)

Inductive outcome (A : Type) : Type :=
| Ok (a : A)
| Fault (f : fault)
| OutOfFuel.

Arguments Ok {A} a.
Arguments Fault {A} f.
Arguments OutOfFuel {A}.

Definition bind {A B : Type} (m : outcome A) (k : A -> outcome B) : outcome B :=
  match m with
  | Ok a => k a
  | Fault f => Fault f
  | OutOfFuel => OutOfFuel
  end.

Notation "x <- m ;; k" := (bind m (fun x => k))
  (at level 61, m at next level, right associativity).

(** ** Instruction-level helpers of LLVM *)

(** [isa<Barrier>(i)]. *)
Definition isaBarrier (i : instruction) : bool :=
  match i with BarrierCall => true | _ => false end.

Definition isaPHINode (i : instruction) : bool :=
  match i with PHINode _ => true | _ => false end.

(** [bb->getTerminator()]: the last instruction when it is a terminator,
    NULL otherwise.  The result is the successor list
    [getSuccessor(0) .. getSuccessor(getNumSuccessors()-1)]. *)
Fixpoint getTerminator (l : list instruction) : option (list block_id) :=
  match l with
  | [] => None
  | [Terminator succs] => Some succs
  | [_] => None
  | _ :: l' => getTerminator l'
  end.

(** [bb->getFirstNonPHI()], as the position of that instruction in the
    block; [None] when the block holds nothing but PHI nodes. *)
Fixpoint getFirstNonPHI (l : list instruction) : option nat :=
  match l with
  | [] => None
  | PHINode _ :: l' => option_map S (getFirstNonPHI l')
  | _ :: _ => Some 0
  end.

(** Modelled from the spec: [Barrier::Create(InsertBefore)] ([Barrier.h] is
    not part of the sources at hand): a new barrier marker is inserted
    immediately before the given instruction of the block. *)
Definition Barrier_Create (l : list instruction) (where_ : nat) : list instruction :=
  firstn where_ l ++ BarrierCall :: skipn where_ l.

(** Writing a block back into the function: nothing but the one instruction
    list changes. *)
Definition setBody (F : Function) (s : block_id) (l : list instruction) : Function :=
  mkFunction (layout F)
             (fun x => if Nat.eqb x s then l else body F x)
             (preds F).

(** ** What a run leaves behind

    Next to the function and the flag [changed], the state of a run keeps a
    record of the statements that were executed.  The record is not part of
    the program; [Injected] sits where the source prints
    "### added an implicit barrier to the BB" under [DEBUG_COND_BARRIERS]. *)

Inductive event : Type :=
| Traced (b : block_id)                     (* line 113: the body starts on b *)
| SplitPoint (b pos : block_id)             (* line 146: pos is the split point of b *)
| Injected (s : block_id).                  (* line 152: Barrier::Create on s *)

Record pass_state : Type := mkState {
  fn : Function;
  changed : bool;
  trail : list event
}.

Definition initial (F : Function) : pass_state := mkState F false [].

Definition option_eqb (a : option block_id) (b : block_id) : bool :=
  match a with Some x => Nat.eqb x b | None => false end.

Section Pass.

(** The collaborators of the pass: the two dominance analyses, the kernel
    test of [Workgroup], and the block predicates of [Barrier] and
    [BarrierBlock]. *)
Variable DT_dominates : block_id -> block_id -> bool.
Variable PDT_dominates : block_id -> block_id -> bool.
Variable isKernelToProcess : Function -> bool.
Variable hasBarrier : list instruction -> bool.
Variable isBarrierBlock : list instruction -> bool.

(** *** firstNonBackedgePredecessor (lines 70-81)

    The iterator [I] of the source is [It], the part of the predecessor
    list that is still ahead; [E] is the empty rest. *)

(** [while (DT->dominates(bb, *I) && I != E) ++I;] -- [*I] is read before
    [I != E] is tested. *)
Fixpoint skipBackedges (bb : block_id) (It : list block_id)
  : outcome (list block_id) :=
  match It with
  | [] => Fault PastTheEnd
  | p :: It' => if DT_dominates bb p then skipBackedges bb It' else Ok It
  end.

Definition firstNonBackedgePredecessor (F : Function) (bb : block_id)
  : outcome (option block_id) :=
  match preds F bb with
  | [] => Ok None                                   (* if (I == E) return NULL; *)
  | It =>
      It' <- skipBackedges bb It ;;
      match It' with
      | [] => Ok None                               (* if (I == E) return NULL; *)
      | p :: _ => Ok (Some p)                       (* else return *I; *)
      end
  end.

(** *** runOnFunction (lines 83-165) *)

(** Lines 93-105: the collecting loop, with [push_back]. *)
Fixpoint collect (F : Function) (it : list block_id)
         (conditionalBarriers : list block_id) : list block_id :=
  match it with
  | [] => conditionalBarriers
  | b :: it' =>
      if negb (hasBarrier (body F b)) then collect F it' conditionalBarriers
      else if PDT_dominates b (getEntryBlock F) then collect F it' conditionalBarriers
      else collect F it' (conditionalBarriers ++ [b])
  end.

Definition conditionalBarriers (F : Function) : list block_id :=
  collect F (layout F) [].

(** Lines 125-135: the upward trace.  [isa<BarrierBlock>(pos)] is the
    first thing the loop condition evaluates. *)
Fixpoint traceLoop (fuel : nat) (F : Function) (b : block_id)
         (pos : option block_id) : outcome (option block_id) :=
  match fuel with
  | O => OutOfFuel
  | S fuel' =>
      match pos with
      | None => Fault NullPointer
      | Some p =>
          if isBarrierBlock (body F p) then Ok pos
          else if negb (PDT_dominates b p) then Ok pos
          else
            pos' <- firstNonBackedgePredecessor F p ;;
            if option_eqb pos' b then Ok pos'
            else traceLoop fuel' F b pos'
      end
  end.

(** Lines 147-157: the loop over the successors of the split point. *)
Fixpoint injectLoop (F : Function) (succs : list block_id)
  : outcome (Function * list event) :=
  match succs with
  | [] => Ok (F, [])
  | succ :: rest =>
      match getFirstNonPHI (body F succ) with
      | None => Fault NullPointer
      | Some where_ =>
          match nth_error (body F succ) where_ with
          | None => Fault NullPointer
          | Some i =>
              if isaBarrier i then injectLoop F rest
              else
                let F' := setBody F succ (Barrier_Create (body F succ) where_) in
                r <- injectLoop F' rest ;;
                Ok (fst r, Injected succ :: snd r)
          end
      end
  end.

(** Lines 121-135: [pos] when the loop is left. *)
Definition tracePos (fuel : nat) (F : Function) (b : block_id)
  : outcome (option block_id) :=
  pos0 <- firstNonBackedgePredecessor F b ;;
  traceLoop fuel F b pos0.

(** Lines 113-158: the body of the repair loop for one conditional
    barrier.  [fuel] bounds the rounds of the trace of this barrier. *)
Definition processBarrier (fuel : nat) (b : block_id) (st : pass_state)
  : outcome pass_state :=
  let F := fn st in
  pos <- tracePos fuel F b ;;
  match pos with
  | None => Fault NullPointer
  | Some p =>
      if isBarrierBlock (body F p) || Nat.eqb p b
      then Ok (mkState F (changed st) (trail st ++ [Traced b]))
      else
        match getTerminator (body F p) with
        | None => Fault NullPointer
        | Some succs =>
            r <- injectLoop F succs ;;
            Ok (mkState (fst r) true
                        (trail st ++ Traced b :: SplitPoint b p :: snd r))
        end
  end.

(** Lines 111-159. *)
Fixpoint processAll (fuel : nat) (bs : list block_id) (st : pass_state)
  : outcome pass_state :=
  match bs with
  | [] => Ok st
  | b :: bs' =>
      st' <- processBarrier fuel b st ;;
      processAll fuel bs' st'
  end.

Definition runOnFunction (fuel : nat) (F : Function) : outcome pass_state :=
  if negb (isKernelToProcess F) then Ok (initial F)
  else
    let cb := conditionalBarriers F in
    if Nat.eqb (length cb) 0 then Ok (initial F)
    else processAll fuel cb (initial F).

(** *** Two notions for the statements below *)

(** The test of the collecting loop, in one piece. *)
Definition isConditional (F : Function) (b : block_id) : bool :=
  hasBarrier (body F b) && negb (PDT_dominates b (getEntryBlock F)).

(** Where the trace may come to rest: at a barrier block, at a block that
    [b] does not post-dominate, or back at [b]; a fault ends it as well. *)
Definition traceEnd (F : Function) (b : block_id)
           (r : outcome (option block_id)) : Prop :=
  match r with
  | Ok (Some q) =>
      isBarrierBlock (body F q) = true \/ PDT_dominates b q = false \/ q = b
  | Ok None => False
  | Fault _ => True
  | OutOfFuel => False
  end.

End Pass.

(** ** The control-flow graph and a reference for the two analyses

    The pass takes the dominator and the post-dominator tree from LLVM.  The
    definitions below say what these analyses answer on a given function, so
    that concrete functions can be run with the analyses they really have. *)

Definition successors (F : Function) (x : block_id) : list block_id :=
  match getTerminator (body F x) with
  | Some succs => succs
  | None => []
  end.

Definition mem (x : block_id) (l : list block_id) : bool :=
  existsb (Nat.eqb x) l.

(** A path along successor edges that never visits [avoid]. *)
Inductive path (F : Function) (avoid : block_id) : block_id -> block_id -> Prop :=
| path_here x : x <> avoid -> path F avoid x x
| path_edge x y z :
    x <> avoid -> In y (successors F x) -> path F avoid y z -> path F avoid x z.

(** [a] dominates [b]: every path from the entry to [b] visits [a]. *)
Definition Dominates (F : Function) (a b : block_id) : Prop :=
  a = b \/ ~ path F a (getEntryBlock F) b.

Definition isExit (F : Function) (x : block_id) : bool :=
  match successors F x with [] => true | _ => false end.

(** [a] post-dominates [b]: every path from [b] to an exit visits [a]. *)
Definition PostDominates (F : Function) (a b : block_id) : Prop :=
  a = b \/ ~ exists e, In e (layout F) /\ isExit F e = true /\ path F a b e.

(** One round of graph search: add the successors that are not [avoid]. *)
Definition expand (F : Function) (avoid : block_id) (S : list block_id)
  : list block_id :=
  nodup Nat.eq_dec
        (S ++ filter (fun y => negb (Nat.eqb y avoid)) (flat_map (successors F) S)).

Fixpoint rounds (n : nat) (F : Function) (avoid : block_id) (S : list block_id)
  : list block_id :=
  match n with
  | O => S
  | S n' => rounds n' F avoid (expand F avoid S)
  end.

Definition reach (F : Function) (avoid start : block_id) : list block_id :=
  if Nat.eqb start avoid then []
  else rounds (length (layout F)) F avoid [start].

(** The search has reached a fixed point: no edge leaves [S] except to
    [avoid]. *)
Definition closedb (F : Function) (avoid : block_id) (S : list block_id) : bool :=
  forallb (fun x => forallb (fun y => Nat.eqb y avoid || mem y S) (successors F x)) S.

Definition dominates_ref (F : Function) (a b : block_id) : bool :=
  Nat.eqb a b || negb (mem b (reach F a (getEntryBlock F))).

Definition postdominates_ref (F : Function) (a b : block_id) : bool :=
  Nat.eqb a b
  || negb (existsb (fun e => isExit F e && mem e (reach F a b)) (layout F)).

(** The searches behind every answer about blocks of [F] are complete. *)
Definition searchesComplete (F : Function) : bool :=
  forallb (fun a =>
             closedb F a (reach F a (getEntryBlock F))
             && forallb (fun b => closedb F a (reach F a b)) (layout F))
          (layout F).

Fixpoint distinct (l : list block_id) : bool :=
  match l with
  | [] => true
  | x :: l' => negb (mem x l') && distinct l'
  end.

(** The shape LLVM's verifier asks of a function: a block list without
    repetition, an entry block without predecessors, a terminator at the end
    of every block, branches to blocks of the function only, and a
    predecessor list that holds exactly the incoming edges. *)
Definition wellFormed (F : Function) : bool :=
  match layout F with
  | [] => false
  | entry :: _ =>
      distinct (layout F)
      && match preds F entry with [] => true | _ => false end
      && forallb (fun x =>
                    match getTerminator (body F x) with
                    | Some succs => forallb (fun y => mem y (layout F)) succs
                    | None => false
                    end
                    && forallb (fun p => mem p (layout F)) (preds F x)
                    && forallb (fun p =>
                                  Nat.eqb (count_occ Nat.eq_dec (preds F x) p)
                                          (count_occ Nat.eq_dec (successors F p) x))
                               (layout F))
                 (layout F)
  end.

(** ** The block predicates used on concrete functions *)

(** Modelled from the spec: [Barrier::hasBarrier] and the [BarrierBlock]
    test ([Barrier.h] and [BarrierBlock.h] are not part of the sources at
    hand): a block has a barrier when a barrier marker is its first
    operation after the PHI nodes. *)
Definition startsWithBarrier (l : list instruction) : bool :=
  match getFirstNonPHI l with
  | Some where_ =>
      match nth_error l where_ with
      | Some i => isaBarrier i
      | None => false
      end
  | None => false
  end.

(** Two stand-ins for [Workgroup::isKernelToProcess] ([Workgroup.h] is not
    part of the sources at hand): every function is a kernel to process, or
    none is. *)
Definition everyFunction (F : Function) : bool := true.

Definition noFunction (F : Function) : bool := false.

(** The pass with the reference analyses of the function it runs on. *)
Definition run (fuel : nat) (F : Function) : outcome pass_state :=
  runOnFunction (dominates_ref F) (postdominates_ref F) everyFunction
                startsWithBarrier startsWithBarrier fuel F.

(** The state a run ends in (the initial one when it does not end). *)
Definition endState (fuel : nat) (F : Function) : pass_state :=
  match run fuel F with
  | Ok st => st
  | _ => initial F
  end.

(** ** Concrete functions *)

Definition blocks (table : list (block_id * list instruction))
           (x : block_id) : list instruction :=
  match find (fun e => Nat.eqb (fst e) x) table with
  | Some e => snd e
  | None => []
  end.

Definition edges (table : list (block_id * list block_id))
           (x : block_id) : list block_id :=
  match find (fun e => Nat.eqb (fst e) x) table with
  | Some e => snd e
  | None => []
  end.

(** Scenario B of the design: 0 -> 1; 1 -> 2 | 3; 2 (barrier) -> 4; 3 -> 4;
    4 returns. *)
Definition diamondUnsafe : Function :=
  mkFunction [0; 1; 2; 3; 4]
    (blocks [(0, [Other 10; Terminator [1]]);
             (1, [Other 11; Terminator [2; 3]]);
             (2, [BarrierCall; Terminator [4]]);
             (3, [Other 13; Terminator [4]]);
             (4, [PHINode 14; Other 15; Terminator []])])
    (edges [(1, [0]); (2, [1]); (3, [1]); (4, [3; 2])]).

(** Scenario A: the barrier sits in the join block 4. *)
Definition diamondSafe : Function :=
  mkFunction [0; 1; 2; 3; 4]
    (blocks [(0, [Other 10; Terminator [1]]);
             (1, [Other 11; Terminator [2; 3]]);
             (2, [Other 12; Terminator [4]]);
             (3, [Other 13; Terminator [4]]);
             (4, [PHINode 14; BarrierCall; Terminator []])])
    (edges [(1, [0]); (2, [1]); (3, [1]); (4, [3; 2])]).

(** Both arms of the branch start with a barrier. *)
Definition bothArms : Function :=
  mkFunction [0; 1; 2; 3]
    (blocks [(0, [Other 10; Terminator [1; 2]]);
             (1, [BarrierCall; Terminator [3]]);
             (2, [BarrierCall; Terminator [3]]);
             (3, [Other 13; Terminator []])])
    (edges [(1, [0]); (2, [0]); (3, [2; 1])]).

(** A barrier in a block that no branch reaches: 0 -> 1; 1 returns;
    2 (barrier) -> 1. *)
Definition deadBarrier : Function :=
  mkFunction [0; 1; 2]
    (blocks [(0, [Other 10; Terminator [1]]);
             (1, [Other 11; Terminator []]);
             (2, [BarrierCall; Terminator [1]])])
    (edges [(1, [2; 0])]).

(** A barrier in an unreachable block that branches to itself:
    2 (barrier) -> 2 | 1. *)
Definition deadLoop : Function :=
  mkFunction [0; 1; 2]
    (blocks [(0, [Other 10; Terminator [1]]);
             (1, [Other 11; Terminator []]);
             (2, [BarrierCall; Terminator [2; 1]])])
    (edges [(1, [2; 0]); (2, [2])]).

(** A loop with two entries (2 and 3 branch to each other and both are
    entered from 1): 0 -> 1 | 5; 1 -> 2 | 3; 2 -> 3 | 4; 3 -> 2;
    4 (barrier) -> 5; 5 returns.  In the predecessor lists of 2 and 3 the
    edge from inside the loop comes first. *)
Definition twoEntryLoop : Function :=
  mkFunction [0; 1; 2; 3; 4; 5]
    (blocks [(0, [Other 10; Terminator [1; 5]]);
             (1, [Other 11; Terminator [2; 3]]);
             (2, [Other 12; Terminator [3; 4]]);
             (3, [Other 13; Terminator [2]]);
             (4, [BarrierCall; Terminator [5]]);
             (5, [Other 15; Terminator []])])
    (edges [(1, [0]); (2, [3; 1]); (3, [2; 1]); (4, [2]); (5, [4; 0])]).

(** Scenario C: a loop on the way to the barrier and a branch around both:
    0 -> 1 | 3; 1 -> 1 | 2; 2 (barrier) -> 3; 3 returns.  The back edge comes
    first among the predecessors of block 1. *)
Definition loopBypass : Function :=
  mkFunction [0; 1; 2; 3]
    (blocks [(0, [Other 10; Terminator [1; 3]]);
             (1, [PHINode 11; Other 12; Terminator [1; 2]]);
             (2, [BarrierCall; Terminator [3]]);
             (3, [Other 13; Terminator []])])
    (edges [(1, [1; 0]); (2, [1]); (3, [2; 0])]).

(** Scenario B after one run of the pass, and after a second run on what
    the first one produced (with the analyses of the first run, which stay
    valid). *)
Definition diamondRepaired : pass_state := endState 6 diamondUnsafe.

Definition diamondRepairedAgain : pass_state :=
  match runOnFunction (dominates_ref diamondUnsafe)
                      (postdominates_ref diamondUnsafe)
                      everyFunction startsWithBarrier startsWithBarrier
                      6 (fn diamondRepaired) with
  | Ok st => st
  | _ => diamondRepaired
  end.

(** ** Vocabulary of the statements *)

(** The block with a barrier marker in front of its first operation after
    the PHI nodes, unless one is there already. *)
Definition withBarrierAtHead (l : list instruction) : list instruction :=
  match getFirstNonPHI l with
  | Some where_ => if startsWithBarrier l then l else Barrier_Create l where_
  | None => l
  end.

Fixpoint tracedBlocks (t : list event) : list block_id :=
  match t with
  | [] => []
  | Traced b :: t' => b :: tracedBlocks t'
  | _ :: t' => tracedBlocks t'
  end.

Definition isInjected (e : event) : bool :=
  match e with Injected _ => true | _ => false end.

Definition isSplitPoint (e : event) : bool :=
  match e with SplitPoint _ _ => true | _ => false end.

(** What one run may have done to a block [x] of [F0], and what the trail
    says about it. *)
Definition blockStory (F0 : Function) (st : pass_state) (x : block_id) : Prop :=
  (~ In (Injected x) (trail st) /\ body (fn st) x = body F0 x)
  \/ (In (Injected x) (trail st)
      /\ startsWithBarrier (body F0 x) = false
      /\ exists where_, getFirstNonPHI (body F0 x) = Some where_
                        /\ body (fn st) x = Barrier_Create (body F0 x) where_).

(** The graph of [F0] is still there, and every block has its story. *)
Definition graphKept (F0 : Function) (st : pass_state) : Prop :=
  layout (fn st) = layout F0 /\ preds (fn st) = preds F0
  /\ forall x, blockStory F0 st x.

(** The flag and the trail tell the same story. *)
Definition flagTold (st : pass_state) : Prop :=
  (changed st = true <-> exists b p, In (SplitPoint b p) (trail st))
  /\ (forall s, In (Injected s) (trail st) ->
                exists b p, In (SplitPoint b p) (trail st)).

(** ** Reachability, and the way a trace climbs *)

(** A walk along successor edges. *)
Inductive walk (F : Function) (x : block_id) : block_id -> Prop :=
| walk_here : walk F x x
| walk_edge y z : walk F x y -> In z (successors F y) -> walk F x z.

(** A number that names no block of the function. *)
Definition fresh (F : Function) : block_id := S (list_max (layout F)).

(** Every block of the function is found by the search from the entry
    block. *)
Definition allReachable (F : Function) : bool :=
  forallb (fun x => mem x (reach F (fresh F) (getEntryBlock F))) (layout F).

(** From [y] the trace of barrier [b] can climb to [r]: each step leaves a
    block that [b] post-dominates, along an edge that is not a back edge. *)
Inductive climb (DT_dominates PDT_dominates : block_id -> block_id -> bool)
          (F : Function) (b : block_id) : block_id -> block_id -> Prop :=
| climb_here y : climb DT_dominates PDT_dominates F b y y
| climb_up y q r :
    PDT_dominates b y = true ->
    In q (preds F y) ->
    DT_dominates y q = false ->
    climb DT_dominates PDT_dominates F b q r ->
    climb DT_dominates PDT_dominates F b y r.

(** The scan of [firstNonBackedgePredecessor], said with [find]. *)
Definition firstForward (DT_dominates : block_id -> block_id -> bool)
           (F : Function) (bb : block_id) : option block_id :=
  find (fun p => negb (DT_dominates bb p)) (preds F bb).

(** What the trail says about split points when a run is over: markers sit
    only in successors of split points; every successor of a split point
    starts with a barrier marker; and a split point of [b] is a block that
    [b] does not post-dominate, other than [b], reached by climbing from a
    predecessor of [b]. *)
Definition splitFacts (DT_dominates PDT_dominates : block_id -> block_id -> bool)
           (F0 : Function) (st : pass_state) : Prop :=
  (forall s, In (Injected s) (trail st) ->
             exists b p, In (SplitPoint b p) (trail st)
                         /\ In s (successors F0 p))
  /\ (forall b p,
         In (SplitPoint b p) (trail st) ->
         (forall s, In s (successors F0 p) ->
                    startsWithBarrier (body (fn st) s) = true)
         /\ PDT_dominates b p = false
         /\ p <> b
         /\ exists y, In y (preds F0 b) /\ DT_dominates b y = false
                      /\ climb DT_dominates PDT_dominates F0 b y p).

(** * Properties *)

(** ** Blocks and the barrier at their head *)

Lemma getFirstNonPHI_shape (l : list instruction) (w : nat) :
  getFirstNonPHI l = Some w ->
  exists i, nth_error l w = Some i /\ isaPHINode i = false
            /\ Forall (fun j => isaPHINode j = true) (firstn w l).
Proof.
  revert w. induction l as [|i l IH]; intros w H; simpl in H; [discriminate|].
  destruct i; try (injection H as <-; eexists; simpl; repeat split; auto; fail).
  destruct (getFirstNonPHI l) as [w'|] eqn:E; simpl in H; [|discriminate].
  injection H as <-. destruct (IH w' eq_refl) as (i & Hn & Hp & Hall).
  exists i. simpl. repeat split; auto.
Qed.

Lemma getFirstNonPHI_Create (l : list instruction) (w : nat) :
  getFirstNonPHI l = Some w ->
  getFirstNonPHI (Barrier_Create l w) = Some w
  /\ nth_error (Barrier_Create l w) w = Some BarrierCall.
Proof.
  revert w. induction l as [|i l IH]; intros w H; simpl in H; [discriminate|].
  destruct i; try (injection H as <-; split; reflexivity).
  destruct (getFirstNonPHI l) as [w'|] eqn:E; simpl in H; [|discriminate].
  injection H as <-. destruct (IH w' eq_refl) as [H1 H2].
  unfold Barrier_Create in *. simpl. rewrite H1. split; auto.
Qed.

Lemma getTerminator_cons (i : instruction) (l : list instruction) :
  l <> [] -> getTerminator (i :: l) = getTerminator l.
Proof. destruct l; [congruence|]. intros _. destruct i; reflexivity. Qed.

Lemma getTerminator_Create (l : list instruction) (w : nat) :
  getFirstNonPHI l = Some w ->
  getTerminator (Barrier_Create l w) = getTerminator l.
Proof.
  revert w. induction l as [|i l IH]; intros w H; simpl in H; [discriminate|].
  destruct i.
  - destruct (getFirstNonPHI l) as [w'|] eqn:E; simpl in H; [|discriminate].
    injection H as <-. specialize (IH w' eq_refl).
    assert (Hl : l <> []) by (destruct l; [discriminate | congruence]).
    change (Barrier_Create (PHINode v :: l) (S w'))
      with (PHINode v :: Barrier_Create l w').
    rewrite !getTerminator_cons; auto.
    unfold Barrier_Create. destruct (firstn w' l); discriminate.
  - injection H as <-. reflexivity.
  - injection H as <-. reflexivity.
  - injection H as <-. reflexivity.
Qed.

Lemma filter_Create (l : list instruction) (w : nat) :
  filter (fun i => negb (isaBarrier i)) (Barrier_Create l w)
  = filter (fun i => negb (isaBarrier i)) l.
Proof.
  unfold Barrier_Create. rewrite filter_app. simpl.
  rewrite <- filter_app, firstn_skipn. reflexivity.
Qed.

Lemma length_Create (l : list instruction) (w : nat) :
  length (Barrier_Create l w) = S (length l).
Proof.
  unfold Barrier_Create. rewrite length_app. simpl.
  rewrite <- (firstn_skipn w l) at 3. rewrite length_app. lia.
Qed.

Lemma Create_neq (l : list instruction) (w : nat) : Barrier_Create l w <> l.
Proof.
  intros H. apply (f_equal (@length _)) in H. rewrite length_Create in H. lia.
Qed.

Lemma startsWithBarrier_Create (l : list instruction) (w : nat) :
  getFirstNonPHI l = Some w -> startsWithBarrier (Barrier_Create l w) = true.
Proof.
  intros H. destruct (getFirstNonPHI_Create l H) as [H1 H2].
  unfold startsWithBarrier. rewrite H1, H2. reflexivity.
Qed.

Lemma withBarrierAtHead_fixed (l : list instruction) :
  startsWithBarrier l = true -> withBarrierAtHead l = l.
Proof.
  unfold withBarrierAtHead. intros ->. destruct (getFirstNonPHI l); auto.
Qed.

Lemma withBarrierAtHead_insert (l : list instruction) (w : nat) :
  getFirstNonPHI l = Some w -> startsWithBarrier l = false ->
  withBarrierAtHead l = Barrier_Create l w.
Proof. unfold withBarrierAtHead. intros -> ->. reflexivity. Qed.

Lemma withBarrierAtHead_idem (l : list instruction) :
  withBarrierAtHead (withBarrierAtHead l) = withBarrierAtHead l.
Proof.
  destruct (startsWithBarrier l) eqn:E.
  - rewrite (withBarrierAtHead_fixed l E). apply withBarrierAtHead_fixed, E.
  - destruct (getFirstNonPHI l) as [w|] eqn:G.
    + rewrite (withBarrierAtHead_insert l G E).
      apply withBarrierAtHead_fixed, startsWithBarrier_Create, G.
    + assert (H : withBarrierAtHead l = l)
        by (unfold withBarrierAtHead; rewrite G; reflexivity).
      rewrite !H. reflexivity.
Qed.

(** ** The loop over the successors (lines 147-157) *)

Lemma body_setBody (F : Function) (s x : block_id) (l : list instruction) :
  body (setBody F s l) x = if Nat.eqb x s then l else body F x.
Proof. reflexivity. Qed.

Lemma injectLoop_spec (succs : list block_id) :
  forall F F' ev,
    injectLoop F succs = Ok (F', ev) ->
    layout F' = layout F /\ preds F' = preds F
    /\ (forall x, In x succs -> body F' x = withBarrierAtHead (body F x))
    /\ (forall x, ~ In x succs -> body F' x = body F x)
    /\ (forall x, In x succs -> getFirstNonPHI (body F x) <> None)
    /\ (forall e, In e ev <->
                  exists s, e = Injected s /\ In s succs
                            /\ startsWithBarrier (body F s) = false).
Proof.
  induction succs as [|s rest IH]; intros F F' ev H; simpl in H.
  - injection H as <- <-. repeat split; auto;
      try (intros x []; fail); try (intros []; fail).
    intros (s & _ & [] & _).
  - destruct (getFirstNonPHI (body F s)) as [w|] eqn:G; [|discriminate].
    destruct (nth_error (body F s) w) as [i|] eqn:N; [|discriminate].
    assert (SW : startsWithBarrier (body F s) = isaBarrier i)
      by (unfold startsWithBarrier; rewrite G, N; reflexivity).
    destruct (isaBarrier i) eqn:B.
    + destruct (IH _ _ _ H) as (L & P & In1 & Out1 & Hd & Ev).
      repeat split; auto.
      * intros x [<-|Hx]; auto.
        destruct (in_dec Nat.eq_dec s rest) as [Hs|Hs]; auto.
        rewrite Out1, withBarrierAtHead_fixed; auto.
      * intros x Hx. apply Out1. simpl in Hx. tauto.
      * intros x [<-|Hx]; [congruence | auto].
      * intros He. apply Ev in He as (s0 & -> & Hs0 & Hb).
        exists s0. simpl. auto.
      * intros (s0 & -> & [<-|Hs0] & Hb); [congruence|].
        apply Ev. eauto.
    + set (F1 := setBody F s (Barrier_Create (body F s) w)) in *.
      destruct (injectLoop F1 rest) as [[F2 ev2]| |] eqn:R; simpl in H;
        try discriminate.
      injection H as <- <-.
      destruct (IH _ _ _ R) as (L & P & In1 & Out1 & Hd & Ev).
      assert (B1 : body F1 s = withBarrierAtHead (body F s)).
      { unfold F1. rewrite body_setBody, Nat.eqb_refl.
        symmetry. apply withBarrierAtHead_insert; auto. }
      assert (Bx : forall x, x <> s -> body F1 x = body F x).
      { intros x Hx. unfold F1. rewrite body_setBody.
        apply Nat.eqb_neq in Hx. rewrite Hx. reflexivity. }
      assert (S1 : startsWithBarrier (body F1 s) = true).
      { unfold F1. rewrite body_setBody, Nat.eqb_refl.
        apply startsWithBarrier_Create, G. }
      repeat split; auto.
      * intros x Hx. destruct (Nat.eq_dec x s) as [->|Hne].
        -- destruct (in_dec Nat.eq_dec s rest) as [Hs|Hs].
           ++ rewrite In1, B1, withBarrierAtHead_idem; auto.
           ++ rewrite Out1; auto.
        -- destruct Hx as [Hx|Hx]; [congruence|].
           rewrite In1, Bx; auto.
      * intros x Hx. simpl in Hx.
        rewrite Out1, Bx; auto.
      * intros x Hx. destruct (Nat.eq_dec x s) as [->|Hne]; [congruence|].
        destruct Hx as [Hx|Hx]; [congruence|].
        rewrite <- Bx; auto.
      * intros [<-|He].
        -- exists s. simpl. auto.
        -- apply Ev in He as (s0 & -> & Hs0 & Hb).
           exists s0. repeat split; simpl; auto.
           rewrite <- Bx; auto. intros ->. congruence.
      * intros (s0 & -> & Hs0 & Hb).
        destruct (Nat.eq_dec s0 s) as [->|Hne]; [left; reflexivity|].
        right. apply Ev. exists s0. repeat split.
        -- destruct Hs0; congruence.
        -- rewrite Bx; auto.
Qed.

Lemma injectLoop_total (succs : list block_id) :
  forall F,
    (forall s, In s succs -> getFirstNonPHI (body F s) <> None) ->
    exists r, injectLoop F succs = Ok r.
Proof.
  induction succs as [|s rest IH]; intros F H; simpl.
  - eauto.
  - destruct (getFirstNonPHI (body F s)) as [w|] eqn:G.
    2:{ exfalso. apply (H s); simpl; auto. }
    destruct (getFirstNonPHI_shape _ G) as (i & N & _).
    rewrite N. destruct (isaBarrier i).
    + apply IH. intros; apply H; simpl; auto.
    + destruct (IH (setBody F s (Barrier_Create (body F s) w))) as [r Hr].
      * intros x Hx. rewrite body_setBody.
        destruct (Nat.eqb x s) eqn:E.
        -- destruct (getFirstNonPHI_Create _ G) as [-> _]. discriminate.
        -- apply H; simpl; auto.
      * rewrite Hr. simpl. eauto.
Qed.

(** ** The reference analyses answer the dominance questions *)

Lemma mem_In (x : block_id) (l : list block_id) : mem x l = true <-> In x l.
Proof.
  unfold mem. rewrite existsb_exists. split.
  - intros (y & Hy & E). apply Nat.eqb_eq in E. subst y. exact Hy.
  - intros H. exists x. split; auto. apply Nat.eqb_refl.
Qed.

Lemma path_start (F : Function) (a x y : block_id) : path F a x y -> x <> a.
Proof. intros P. destruct P; assumption. Qed.

Lemma path_snoc (F : Function) (a x y z : block_id) :
  path F a x y -> In z (successors F y) -> z <> a -> path F a x z.
Proof.
  intros P. induction P as [x Hx|x y0 y Hx Hy _ IH]; intros Hz Hne.
  - apply path_edge with z; auto. apply path_here, Hne.
  - apply path_edge with y0; auto.
Qed.

Lemma expand_In (F : Function) (a : block_id) (S : list block_id) (y : block_id) :
  In y (expand F a S)
  <-> In y S \/ (y <> a /\ exists x, In x S /\ In y (successors F x)).
Proof.
  unfold expand. rewrite nodup_In, in_app_iff, filter_In, in_flat_map.
  rewrite negb_true_iff, Nat.eqb_neq. tauto.
Qed.

Lemma rounds_sound (F : Function) (a s : block_id) (n : nat) :
  forall S, (forall y, In y S -> path F a s y) ->
            forall y, In y (rounds n F a S) -> path F a s y.
Proof.
  induction n as [|n IH]; intros S HS y Hy; simpl in Hy; auto.
  apply (IH (expand F a S)); auto.
  intros z Hz. apply expand_In in Hz as [Hz|(Hne & x & Hx & Hzx)]; auto.
  apply path_snoc with x; auto.
Qed.

Lemma rounds_grows (F : Function) (a : block_id) (n : nat) :
  forall S y, In y S -> In y (rounds n F a S).
Proof.
  induction n as [|n IH]; intros S y Hy; simpl; auto.
  apply IH, expand_In. auto.
Qed.

Lemma reach_sound (F : Function) (a s y : block_id) :
  In y (reach F a s) -> path F a s y.
Proof.
  unfold reach. destruct (Nat.eqb s a) eqn:E; [intros []|].
  apply Nat.eqb_neq in E. apply rounds_sound.
  intros z [<-|[]]. apply path_here, E.
Qed.

Lemma closed_complete (F : Function) (a : block_id) (S : list block_id) :
  closedb F a S = true ->
  forall x y, path F a x y -> In x S -> In y S.
Proof.
  intros C x y P. induction P as [x Hx|x y0 y Hx Hy P IH]; auto.
  intros HS. apply IH.
  unfold closedb in C. rewrite forallb_forall in C.
  specialize (C x HS). rewrite forallb_forall in C. specialize (C y0 Hy).
  apply orb_true_iff in C as [C|C].
  - apply Nat.eqb_eq in C. apply path_start in P. contradiction.
  - apply mem_In, C.
Qed.

Lemma reach_complete (F : Function) (a s y : block_id) :
  closedb F a (reach F a s) = true -> path F a s y -> In y (reach F a s).
Proof.
  intros C P. apply (@closed_complete F a _ C _ _ P).
  unfold reach. pose proof (@path_start F a s y P) as Hs.
  apply Nat.eqb_neq in Hs. rewrite Hs. apply rounds_grows. simpl. auto.
Qed.

Lemma dominates_ref_exact (F : Function) (a b : block_id) :
  closedb F a (reach F a (getEntryBlock F)) = true ->
  dominates_ref F a b = true <-> Dominates F a b.
Proof.
  intros C. unfold dominates_ref, Dominates.
  rewrite orb_true_iff, Nat.eqb_eq, negb_true_iff. split.
  - intros [?|M]; auto. right. intros P.
    apply (@reach_complete F _ _ _ C), mem_In in P. congruence.
  - intros [?|N]; auto. right.
    destruct (mem b (reach F a (getEntryBlock F))) eqn:M; auto.
    exfalso. apply N, reach_sound, mem_In, M.
Qed.

Lemma postdominates_ref_exact (F : Function) (a b : block_id) :
  closedb F a (reach F a b) = true ->
  postdominates_ref F a b = true <-> PostDominates F a b.
Proof.
  intros C. unfold postdominates_ref, PostDominates.
  rewrite orb_true_iff, Nat.eqb_eq, negb_true_iff. split.
  - intros [?|M]; auto. right. intros (e & He & Hx & P).
    apply (@reach_complete F _ _ _ C), mem_In in P.
    assert (X : existsb (fun e => isExit F e && mem e (reach F a b)) (layout F)
                = true).
    { apply existsb_exists. exists e. rewrite Hx, P. auto. }
    congruence.
  - intros [?|N]; auto. right.
    destruct (existsb _ (layout F)) eqn:M; auto.
    exfalso. apply N. apply existsb_exists in M as (e & He & M).
    apply andb_true_iff in M as [Hx M].
    exists e. repeat split; auto. apply reach_sound, mem_In, M.
Qed.

Lemma searchesComplete_exact (F : Function) :
  searchesComplete F = true ->
  forall a b, In a (layout F) -> In b (layout F) ->
              (dominates_ref F a b = true <-> Dominates F a b)
              /\ (postdominates_ref F a b = true <-> PostDominates F a b).
Proof.
  unfold searchesComplete. rewrite forallb_forall. intros C a b Ha Hb.
  specialize (C a Ha). apply andb_true_iff in C as [C1 C2].
  rewrite forallb_forall in C2. split.
  - apply dominates_ref_exact, C1.
  - apply postdominates_ref_exact, C2, Hb.
Qed.

(** ** The graph does not depend on the markers *)

Lemma getTerminator_head (l : list instruction) :
  getTerminator l <> None -> getFirstNonPHI l <> None.
Proof.
  induction l as [|i l IH]; simpl; auto.
  destruct i; try discriminate.
  destruct l as [|j l]; [congruence|]. intros H.
  specialize (IH H). destruct (getFirstNonPHI (j :: l)); [discriminate|congruence].
Qed.

Lemma path_same_edges (F F' : Function) (a : block_id) :
  (forall x, successors F' x = successors F x) ->
  forall x y, path F a x y -> path F' a x y.
Proof.
  intros E x y P. induction P as [x Hx|x y z Hx Hy _ IH].
  - apply path_here, Hx.
  - apply path_edge with y; auto. rewrite E. exact Hy.
Qed.

Lemma analyses_same_graph (F F' : Function) :
  layout F' = layout F ->
  (forall x, successors F' x = successors F x) ->
  forall a b, (Dominates F' a b <-> Dominates F a b)
              /\ (PostDominates F' a b <-> PostDominates F a b).
Proof.
  intros L E a b.
  assert (E' : forall x, successors F x = successors F' x) by (intros; symmetry; apply E).
  assert (En : getEntryBlock F' = getEntryBlock F)
    by (unfold getEntryBlock; rewrite L; reflexivity).
  assert (Ex : forall e, isExit F' e = isExit F e)
    by (intros e; unfold isExit; rewrite E; reflexivity).
  unfold Dominates, PostDominates. rewrite En, L. split; split.
  - intros [?|N]; auto. right. intros P. apply N.
    apply path_same_edges with F; auto.
  - intros [?|N]; auto. right. intros P. apply N.
    apply path_same_edges with F'; auto.
  - intros [?|N]; auto. right. intros (e & He & Hx & P). apply N.
    exists e. rewrite Ex. repeat split; auto.
    apply path_same_edges with F; auto.
  - intros [?|N]; auto. right. intros (e & He & Hx & P). apply N.
    exists e. rewrite <- Ex. repeat split; auto.
    apply path_same_edges with F'; auto.
Qed.

(** ** One conditional barrier, then all of them *)

Section Run.

Variable DT_dominates : block_id -> block_id -> bool.
Variable PDT_dominates : block_id -> block_id -> bool.
Variable isKernelToProcess : Function -> bool.
Variable hasBarrier : list instruction -> bool.
Variable isBarrierBlock : list instruction -> bool.

Local Abbreviation tracePos' := (tracePos DT_dominates PDT_dominates isBarrierBlock).
Local Abbreviation processBarrier' :=
  (processBarrier DT_dominates PDT_dominates isBarrierBlock).
Local Abbreviation processAll' :=
  (processAll DT_dominates PDT_dominates isBarrierBlock).
Local Abbreviation conditionalBarriers' :=
  (conditionalBarriers PDT_dominates hasBarrier).
Local Abbreviation runOnFunction' :=
  (runOnFunction DT_dominates PDT_dominates isKernelToProcess
                 hasBarrier isBarrierBlock).
Local Abbreviation isConditional' := (isConditional PDT_dominates hasBarrier).

(** The two ways the loop body can end without a fault. *)
Lemma processBarrier_cases (fuel : nat) (b : block_id) (st st' : pass_state) :
  processBarrier' fuel b st = Ok st' ->
  (fn st' = fn st /\ changed st' = changed st
   /\ trail st' = trail st ++ [Traced b])
  \/ (exists p succs ev,
         tracePos' fuel (fn st) b = Ok (Some p)
         /\ isBarrierBlock (body (fn st) p) = false /\ p <> b
         /\ getTerminator (body (fn st) p) = Some succs
         /\ injectLoop (fn st) succs = Ok (fn st', ev)
         /\ changed st' = true
         /\ trail st' = trail st ++ Traced b :: SplitPoint b p :: ev).
Proof.
  unfold processBarrier. intros H.
  destruct (tracePos' fuel (fn st) b) as [[p|]| |] eqn:T; simpl in H;
    try discriminate.
  destruct (isBarrierBlock (body (fn st) p)) eqn:BB; simpl in H.
  { injection H as <-. left. auto. }
  destruct (Nat.eqb p b) eqn:E; simpl in H.
  { injection H as <-. left. auto. }
  destruct (getTerminator (body (fn st) p)) as [succs|] eqn:GT;
    [|discriminate].
  destruct (injectLoop (fn st) succs) as [[F' ev]| |] eqn:IL; simpl in H;
    try discriminate.
  injection H as <-. right. exists p, succs, ev. simpl.
  apply Nat.eqb_neq in E. repeat split; auto.
Qed.

Lemma processAll_preserves (P : pass_state -> Prop) (fuel : nat) :
  (forall b st st', P st -> processBarrier' fuel b st = Ok st' -> P st') ->
  forall bs st st', P st -> processAll' fuel bs st = Ok st' -> P st'.
Proof.
  intros Step. induction bs as [|b bs IH]; intros st st' HP H; simpl in H.
  - injection H as <-. exact HP.
  - destruct (processBarrier' fuel b st) as [st1| |] eqn:E; simpl in H;
      try discriminate.
    eapply IH; [|exact H]. eapply Step; eauto.
Qed.

Lemma runOnFunction_cases (fuel : nat) (F : Function) (st : pass_state) :
  runOnFunction' fuel F = Ok st ->
  (st = initial F
   /\ (isKernelToProcess F = false \/ conditionalBarriers' F = []))
  \/ (isKernelToProcess F = true /\ conditionalBarriers' F <> []
      /\ processAll' fuel (conditionalBarriers' F) (initial F) = Ok st).
Proof.
  unfold runOnFunction. intros H.
  destruct (isKernelToProcess F); simpl in H; [|injection H as <-; auto].
  destruct (conditionalBarriers' F) as [|b bs] eqn:C.
  - injection H as <-; auto.
  - right. repeat split; auto. discriminate.
Qed.

(** *** The story of every block *)

Lemma graphKept_initial (F : Function) : graphKept F (initial F).
Proof. repeat split. intros x. left. simpl. auto. Qed.

Lemma graphKept_step (F0 : Function) (fuel : nat) (b : block_id)
      (st st' : pass_state) :
  graphKept F0 st -> processBarrier' fuel b st = Ok st' -> graphKept F0 st'.
Proof.
  intros (L & P & Story) H.
  destruct (processBarrier_cases _ _ _ H)
    as [(Hf & _ & Ht) | (p & succs & ev & _ & _ & _ & _ & IL & _ & Ht)].
  - unfold graphKept, blockStory. rewrite Hf, Ht. repeat split; auto.
    intros x. destruct (Story x) as [[N B]|(I & S & w & G & B)].
    + left. split; auto. rewrite in_app_iff. simpl.
      intros [?|[?|[]]]; [tauto | discriminate].
    + right. rewrite in_app_iff. eauto 10.
  - destruct (injectLoop_spec _ _ IL) as (L' & P' & In1 & Out1 & Hd & Ev).
    unfold graphKept. repeat split; try congruence.
    intros x. unfold blockStory. rewrite Ht.
    assert (Hin : In (Injected x) (trail st ++ Traced b :: SplitPoint b p :: ev)
                  <-> In (Injected x) (trail st) \/ In (Injected x) ev).
    { rewrite in_app_iff. simpl. split.
      - intros [?|[?|[?|?]]]; auto; discriminate.
      - intros [?|?]; auto. }
    rewrite Hin. clear Hin.
    destruct (Story x) as [[N B]|(I & S & w & G & B)].
    + destruct (in_dec Nat.eq_dec x succs) as [Hx|Hx].
      * destruct (startsWithBarrier (body F0 x)) eqn:SW.
        -- left. split.
           ++ intros [?|He]; [tauto|].
              apply Ev in He as (s & [= <-] & _ & Hs). congruence.
           ++ rewrite In1, B, withBarrierAtHead_fixed; auto.
        -- right. split; [|split; auto].
           ++ right. apply Ev. exists x. rewrite B. auto.
           ++ destruct (getFirstNonPHI (body F0 x)) as [w|] eqn:G.
              ** exists w. split; auto.
                 rewrite In1, B; auto. apply withBarrierAtHead_insert; auto.
              ** exfalso. apply (Hd x Hx). congruence.
      * left. split.
        -- intros [?|He]; [tauto|].
           apply Ev in He as (s & [= <-] & Hs & _). tauto.
        -- rewrite Out1; auto.
    + right. split; auto. split; auto. exists w. split; auto.
      assert (SW : startsWithBarrier (body (fn st) x) = true)
        by (rewrite B; apply startsWithBarrier_Create, G).
      destruct (in_dec Nat.eq_dec x succs) as [Hx|Hx].
      * rewrite In1, withBarrierAtHead_fixed; auto.
      * rewrite Out1; auto.
Qed.

Lemma graphKept_run (fuel : nat) (F : Function) (st : pass_state) :
  runOnFunction' fuel F = Ok st -> graphKept F st.
Proof.
  intros H. destruct (runOnFunction_cases _ _ H) as [[-> _]|(_ & _ & HP)].
  - apply graphKept_initial.
  - eapply processAll_preserves with (P := graphKept F); [| |exact HP].
    + intros b s s'. apply graphKept_step.
    + apply graphKept_initial.
Qed.

(** *** The trail *)

Lemma tracedBlocks_app (t u : list event) :
  tracedBlocks (t ++ u) = tracedBlocks t ++ tracedBlocks u.
Proof.
  induction t as [|e t IH]; simpl; auto.
  destruct e; simpl; rewrite ?IH; reflexivity.
Qed.

Lemma tracedBlocks_injections (F F' : Function) (succs : list block_id)
      (ev : list event) :
  injectLoop F succs = Ok (F', ev) -> tracedBlocks ev = [].
Proof.
  intros H. destruct (injectLoop_spec _ _ H) as (_ & _ & _ & _ & _ & Ev).
  assert (A : forall e, In e ev -> isInjected e = true).
  { intros e He. apply Ev in He as (s & -> & _). reflexivity. }
  clear Ev H. induction ev as [|e ev IH]; auto.
  pose proof (A e (or_introl eq_refl)) as He.
  destruct e; try discriminate. simpl. apply IH.
  intros e' He'. apply A. right. exact He'.
Qed.

Lemma no_splitPoint_among_injections (F F' : Function)
      (succs : list block_id) (ev : list event) (b p : block_id) :
  injectLoop F succs = Ok (F', ev) -> ~ In (SplitPoint b p) ev.
Proof.
  intros H He. destruct (injectLoop_spec _ _ H) as (_ & _ & _ & _ & _ & Ev).
  apply Ev in He as (s & [=] & _).
Qed.

Lemma flagTold_initial (F : Function) : flagTold (initial F).
Proof.
  split; [split|]; simpl.
  - discriminate.
  - intros (b & p & []).
  - intros s [].
Qed.

Lemma flagTold_step (fuel : nat) (b : block_id) (st st' : pass_state) :
  flagTold st -> processBarrier' fuel b st = Ok st' -> flagTold st'.
Proof.
  intros [Flag Inj] H.
  destruct (processBarrier_cases _ _ _ H)
    as [(Hf & Hc & Ht) | (p & succs & ev & _ & _ & _ & _ & IL & Hc & Ht)].
  - unfold flagTold. rewrite Hc, Ht. split; [split|].
    + intros C. apply Flag in C as (b0 & p0 & I0). exists b0, p0.
      apply in_or_app. auto.
    + intros (b0 & p0 & I0). apply Flag.
      apply in_app_or in I0 as [I0|[I0|[]]]; [eauto | discriminate].
    + intros s Hs. apply in_app_or in Hs as [Hs|[Hs|[]]]; [|discriminate].
      destruct (Inj s Hs) as (b0 & p0 & I0). exists b0, p0.
      apply in_or_app. auto.
  - assert (Sp : In (SplitPoint b p) (trail st')).
    { rewrite Ht. apply in_or_app. right. simpl. auto. }
    unfold flagTold. rewrite Hc. split; [split|]; eauto.
Qed.

(** Every block the loop body starts on comes from the list it was given,
    and so does the barrier of every split point. *)
Lemma processAll_trail (fuel : nat) :
  forall bs st st',
    processAll' fuel bs st = Ok st' ->
    tracedBlocks (trail st') = tracedBlocks (trail st) ++ bs
    /\ forall b p, In (SplitPoint b p) (trail st') ->
                   In (SplitPoint b p) (trail st) \/ In b bs.
Proof.
  induction bs as [|b bs IH]; intros st st' H; simpl in H.
  - injection H as <-. rewrite app_nil_r. auto.
  - destruct (processBarrier' fuel b st) as [st1| |] eqn:E; simpl in H;
      try discriminate.
    destruct (IH _ _ H) as [T S]. rewrite T.
    destruct (processBarrier_cases _ _ _ E)
      as [(_ & _ & Ht) | (p & succs & ev & _ & _ & _ & _ & IL & _ & Ht)].
    + rewrite Ht, tracedBlocks_app, <- app_assoc. split; auto.
      intros b0 p0 I0. destruct (S _ _ I0) as [I1|I1]; [|simpl; auto].
      rewrite Ht in I1. apply in_app_or in I1 as [I1|[I1|[]]];
        [auto | discriminate].
    + rewrite Ht, tracedBlocks_app. simpl.
      rewrite (tracedBlocks_injections _ _ IL), <- app_assoc. split; auto.
      intros b0 p0 I0. destruct (S _ _ I0) as [I1|I1]; [|simpl; auto].
      rewrite Ht in I1. apply in_app_or in I1 as [I1|[I1|[I1|I1]]]; auto.
      * discriminate.
      * injection I1 as -> ->. simpl. auto.
      * exfalso. eapply no_splitPoint_among_injections; eauto.
Qed.

(** *** The collecting loop (lines 93-105) *)

Lemma filter_none (f : block_id -> bool) (l : list block_id) :
  (forall x, In x l -> f x = false) -> filter f l = [].
Proof.
  induction l as [|x l IH]; intros H; simpl; auto.
  rewrite (H x (or_introl eq_refl)). apply IH.
  intros y Hy. apply H. right. exact Hy.
Qed.

Lemma collect_filter (F : Function) (it acc : list block_id) :
  collect PDT_dominates hasBarrier F it acc
  = acc ++ filter (isConditional' F) it.
Proof.
  revert acc. induction it as [|b it IH]; intros acc; simpl.
  - rewrite app_nil_r. reflexivity.
  - assert (C : isConditional' F b
                = hasBarrier (body F b)
                  && negb (PDT_dominates b (getEntryBlock F)))
      by reflexivity.
    rewrite C.
    destruct (hasBarrier (body F b)); simpl; [|apply IH].
    destruct (PDT_dominates b (getEntryBlock F)); simpl; [apply IH|].
    rewrite IH, <- app_assoc. reflexivity.
Qed.

Lemma conditionalBarriers_filter (F : Function) :
  conditionalBarriers' F = filter (isConditional' F) (layout F).
Proof. unfold conditionalBarriers. apply collect_filter. Qed.

Lemma unchanged_while_false (F0 : Function) (fuel : nat) :
  forall bs st st',
    (changed st = false -> fn st = F0) ->
    processAll' fuel bs st = Ok st' ->
    changed st' = false -> fn st' = F0.
Proof.
  intros bs st st' H0 H.
  apply (processAll_preserves (fun s => changed s = false -> fn s = F0) fuel)
    with (bs := bs) (st := st); auto.
  clear. intros b st st' HP H C.
  destruct (processBarrier_cases _ _ _ H)
    as [(Hf & Hc & _) | (p & succs & ev & _ & _ & _ & _ & _ & Hc & _)].
  - rewrite Hf. apply HP. congruence.
  - congruence.
Qed.

Lemma flagTold_run (fuel : nat) (F : Function) (st : pass_state) :
  runOnFunction' fuel F = Ok st -> flagTold st.
Proof.
  intros H. destruct (runOnFunction_cases _ _ H) as [[-> _]|(_ & _ & HP)].
  - apply flagTold_initial.
  - eapply processAll_preserves with (P := flagTold); [| |exact HP].
    + intros b s s'. apply flagTold_step.
    + apply flagTold_initial.
Qed.

(** A trace that does not come back stops the whole run. *)
Lemma first_barrier_stops (fuel : nat) (F : Function) (b : block_id)
      (bs : list block_id) :
  isKernelToProcess F = true ->
  conditionalBarriers' F = b :: bs ->
  (forall pos, tracePos' fuel F b <> Ok pos) ->
  runOnFunction' fuel F
  = match tracePos' fuel F b with
    | Fault f => Fault f
    | _ => OutOfFuel
    end.
Proof.
  intros K C N. unfold runOnFunction. rewrite K, C. simpl.
  unfold processBarrier. simpl.
  destruct (tracePos' fuel F b) as [pos| |]; simpl; auto.
  exfalso. apply (N pos). reflexivity.
Qed.

(** *** The claims about [runOnFunction] *)

(** C1, as amended: the pass returns true exactly when the trace of some
    conditional barrier ended at a split point.  Every marker that was
    inserted makes the result true, and a block differs from its input
    exactly when a marker was inserted into it; with the result false the
    function is the one that was passed in.  (That a true result comes
    with an insertion does not hold.) *)
Theorem changed_iff_split_point (fuel : nat) (F : Function) (st : pass_state) :
  runOnFunction' fuel F = Ok st ->
  (changed st = true <-> exists b p, In (SplitPoint b p) (trail st))
  /\ ((exists s, In (Injected s) (trail st)) -> changed st = true)
  /\ (forall s, In (Injected s) (trail st) <-> body (fn st) s <> body F s)
  /\ (changed st = false -> fn st = F).
Proof.
  intros H. destruct (flagTold_run _ _ H) as [Flag Inj].
  destruct (graphKept_run _ _ H) as (_ & _ & Story).
  repeat split.
  - apply Flag.
  - apply Flag.
  - intros (s & Hs). apply Flag. eauto.
  - intros Hs. destruct (Story s) as [[N _]|(_ & _ & w & _ & B)]; [tauto|].
    rewrite B. apply Create_neq.
  - intros Hs. destruct (Story s) as [[_ B]|(I & _)]; [tauto | exact I].
  - destruct (runOnFunction_cases _ _ H) as [[-> _]|(_ & _ & HP)];
      [reflexivity|].
    apply (unchanged_while_false fuel _ _ (fun _ => eq_refl) HP).
Qed.

(** C6: a block with a barrier that post-dominates the entry block is not
    put into the list of conditional barriers, the loop body never starts
    on it and no split point is ever found for it; the list holds the
    conditional barriers in the order of the function's block list; and
    with an empty list (as when no block has a barrier) the pass returns
    false, whatever the fuel. *)
Theorem unconditional_barriers_left_alone (F : Function) :
  (forall b, PDT_dominates b (getEntryBlock F) = true ->
             ~ In b (conditionalBarriers' F))
  /\ conditionalBarriers' F
     = filter (fun b => hasBarrier (body F b)
                        && negb (PDT_dominates b (getEntryBlock F)))
              (layout F)
  /\ (conditionalBarriers' F = [] ->
      forall fuel, runOnFunction' fuel F = Ok (mkState F false []))
  /\ ((forall b, In b (layout F) -> hasBarrier (body F b) = false) ->
      forall fuel, runOnFunction' fuel F = Ok (mkState F false []))
  /\ (forall fuel st b,
         runOnFunction' fuel F = Ok st ->
         PDT_dominates b (getEntryBlock F) = true ->
         ~ In b (tracedBlocks (trail st))
         /\ forall p, ~ In (SplitPoint b p) (trail st)).
Proof.
  assert (NotIn : forall b, PDT_dominates b (getEntryBlock F) = true ->
                            ~ In b (conditionalBarriers' F)).
  { intros b Hb. rewrite conditionalBarriers_filter, filter_In.
    unfold isConditional. rewrite Hb, andb_false_r. intros [_ [=]]. }
  assert (Empty : conditionalBarriers' F = [] ->
                  forall fuel, runOnFunction' fuel F = Ok (mkState F false [])).
  { intros E fuel. unfold runOnFunction. rewrite E.
    destruct (isKernelToProcess F); reflexivity. }
  split; [|split; [|split; [|split]]].
  - exact NotIn.
  - apply conditionalBarriers_filter.
  - exact Empty.
  - intros Hno. apply Empty. rewrite conditionalBarriers_filter.
    apply filter_none.
    intros b Hb. unfold isConditional. rewrite (Hno b Hb). reflexivity.
  - intros fuel st b H Hb.
    destruct (runOnFunction_cases _ _ H) as [[-> _]|(_ & _ & HP)].
    + split; [intros [] | intros p []].
    + destruct (processAll_trail _ _ _ HP) as [T S]. split.
      * rewrite T. simpl. apply NotIn, Hb.
      * intros p Hp. destruct (S _ _ Hp) as [[]|Hin].
        exact (NotIn b Hb Hin).
Qed.

(** C9: the blocks the repair loop works on are the conditional barriers
    of the function as it was passed in, in that order, whatever the loop
    inserts on the way: every split point belongs to one of them, and a
    block that only receives its marker during the run is never traced. *)
Theorem worklist_fixed_before_mutation (fuel : nat) (F : Function)
        (st : pass_state) :
  runOnFunction' fuel F = Ok st ->
  tracedBlocks (trail st)
  = (if isKernelToProcess F then conditionalBarriers' F else [])
  /\ (forall b p, In (SplitPoint b p) (trail st) ->
                  In b (conditionalBarriers' F))
  /\ (forall s, In (Injected s) (trail st) ->
                ~ In s (conditionalBarriers' F) ->
                ~ In s (tracedBlocks (trail st))).
Proof.
  intros H.
  assert (T : tracedBlocks (trail st)
              = (if isKernelToProcess F then conditionalBarriers' F else [])
              /\ forall b p, In (SplitPoint b p) (trail st) ->
                             In b (conditionalBarriers' F)).
  { destruct (runOnFunction_cases _ _ H) as [[-> E]|(K & _ & HP)].
    - split; [|intros ? ? []]. simpl.
      destruct E as [-> | ->]; [|destruct (isKernelToProcess F)]; reflexivity.
    - rewrite K. destruct (processAll_trail _ _ _ HP) as [T S].
      split; [exact T|].
      intros b0 p0 I0. destruct (S _ _ I0) as [[]|]; auto. }
  destruct T as [T S]. repeat split; auto.
  intros s _ Hn Ht. rewrite T in Ht.
  destruct (isKernelToProcess F); [tauto | destruct Ht].
Qed.

(** C10: on a function that is not a kernel to process the pass returns
    false and hands the function back as it is: the same blocks, edges and
    instruction lists. *)
Theorem non_kernel_untouched (fuel : nat) (F : Function) :
  isKernelToProcess F = false ->
  runOnFunction' fuel F = Ok (mkState F false []).
Proof. intros H. unfold runOnFunction. rewrite H. reflexivity. Qed.

(** C5: with a split point [p] found for the conditional barrier [b]
    (not a barrier block, not [b] itself), the loop body ends without a
    fault and sets the flag; every successor of [p] that already starts
    with a barrier marker is left as it is; every other successor gets one
    new marker in front of its first instruction after the PHI nodes, so
    that nothing but PHI nodes precedes it; no other block changes. *)
Theorem split_point_successors_get_barrier
        (fuel : nat) (b p : block_id) (succs : list block_id)
        (st : pass_state) :
  tracePos' fuel (fn st) b = Ok (Some p) ->
  isBarrierBlock (body (fn st) p) = false ->
  p <> b ->
  getTerminator (body (fn st) p) = Some succs ->
  (forall s, In s succs -> getTerminator (body (fn st) s) <> None) ->
  exists st',
    processBarrier' fuel b st = Ok st'
    /\ changed st' = true
    /\ layout (fn st') = layout (fn st) /\ preds (fn st') = preds (fn st)
    /\ (forall s, In s succs -> startsWithBarrier (body (fn st) s) = true ->
                  body (fn st') s = body (fn st) s)
    /\ (forall s, In s succs -> startsWithBarrier (body (fn st) s) = false ->
                  exists where_,
                    getFirstNonPHI (body (fn st) s) = Some where_
                    /\ Forall (fun i => isaPHINode i = true)
                              (firstn where_ (body (fn st) s))
                    /\ body (fn st') s
                       = firstn where_ (body (fn st) s)
                         ++ BarrierCall :: skipn where_ (body (fn st) s))
    /\ (forall s, ~ In s succs -> body (fn st') s = body (fn st) s)
    /\ (forall s, In (Injected s) (trail st') <->
                  In (Injected s) (trail st)
                  \/ (In s succs /\ startsWithBarrier (body (fn st) s) = false)).
Proof.
  intros T BB Hne GT WF.
  destruct (injectLoop_total succs (fn st)) as [[F' ev] IL].
  { intros s Hs. apply getTerminator_head, WF, Hs. }
  destruct (injectLoop_spec _ _ IL) as (L & P & In1 & Out1 & Hd & Ev).
  exists (mkState F' true (trail st ++ Traced b :: SplitPoint b p :: ev)).
  split.
  { unfold processBarrier. rewrite T. simpl. rewrite BB.
    apply Nat.eqb_neq in Hne. rewrite Hne. simpl. rewrite GT, IL.
    reflexivity. }
  simpl. repeat split; auto.
  - intros s Hs SW. rewrite In1, withBarrierAtHead_fixed; auto.
  - intros s Hs SW.
    destruct (getFirstNonPHI (body (fn st) s)) as [w|] eqn:G.
    2:{ exfalso. apply (Hd s Hs G). }
    exists w. destruct (getFirstNonPHI_shape _ G) as (i & _ & _ & Hall).
    repeat split; auto.
    rewrite In1; auto. apply withBarrierAtHead_insert; auto.
  - intros Hs. apply in_app_or in Hs as [Hs|[Hs|[Hs|Hs]]];
      try discriminate; auto.
    apply Ev in Hs as (s0 & [= <-] & Hs0 & SW). auto.
  - intros [Hs|[Hs SW]]; apply in_or_app; [auto|].
    right. right. right. apply Ev. eauto.
Qed.

(** C7: a run keeps the block list, the predecessor lists and every
    terminator with its successors; a block is either untouched or has
    exactly one new barrier marker in front of its first instruction after
    the PHI nodes; the instructions that are not barrier markers are the
    same, in the same order; and both dominance relations of the function
    are the ones it had before the run. *)
Theorem only_markers_are_added (fuel : nat) (F : Function) (st : pass_state) :
  runOnFunction' fuel F = Ok st ->
  layout (fn st) = layout F
  /\ preds (fn st) = preds F
  /\ (forall x, getTerminator (body (fn st) x) = getTerminator (body F x))
  /\ (forall x, successors (fn st) x = successors F x)
  /\ (forall x,
         body (fn st) x = body F x
         \/ exists where_,
             getFirstNonPHI (body F x) = Some where_
             /\ Forall (fun i => isaPHINode i = true) (firstn where_ (body F x))
             /\ body (fn st) x
                = firstn where_ (body F x) ++ BarrierCall :: skipn where_ (body F x))
  /\ (forall x,
         filter (fun i => negb (isaBarrier i)) (body (fn st) x)
         = filter (fun i => negb (isaBarrier i)) (body F x))
  /\ (forall a b,
         (Dominates (fn st) a b <-> Dominates F a b)
         /\ (PostDominates (fn st) a b <-> PostDominates F a b)).
Proof.
  intros H. destruct (graphKept_run _ _ H) as (L & P & Story).
  assert (GT : forall x, getTerminator (body (fn st) x) = getTerminator (body F x)).
  { intros x. destruct (Story x) as [[_ B]|(_ & _ & w & G & B)]; rewrite B; auto.
    apply getTerminator_Create, G. }
  assert (SC : forall x, successors (fn st) x = successors F x).
  { intros x. unfold successors. rewrite GT. reflexivity. }
  split; [exact L|]. split; [exact P|]. split; [exact GT|].
  split; [exact SC|]. split; [|split].
  - intros x. destruct (Story x) as [[_ B]|(_ & _ & w & G & B)]; auto.
    right. exists w. destruct (getFirstNonPHI_shape _ G) as (i & _ & _ & Hall).
    auto.
  - intros x. destruct (Story x) as [[_ B]|(_ & _ & w & G & B)]; rewrite B; auto.
    apply filter_Create.
  - apply analyses_same_graph; auto.
Qed.

(** C8: when the pass is run again on the function a first run produced,
    every block that received a marker in the first run starts with a
    barrier marker, gets no marker in the second run and comes out of the
    second run as it went in. *)
Theorem second_run_skips_repaired_sites
        (fuel1 fuel2 : nat) (F : Function) (st1 st2 : pass_state) :
  runOnFunction' fuel1 F = Ok st1 ->
  runOnFunction' fuel2 (fn st1) = Ok st2 ->
  forall s, In (Injected s) (trail st1) ->
            startsWithBarrier (body (fn st1) s) = true
            /\ ~ In (Injected s) (trail st2)
            /\ body (fn st2) s = body (fn st1) s.
Proof.
  intros H1 H2 s Hs.
  destruct (graphKept_run _ _ H1) as (_ & _ & Story1).
  destruct (graphKept_run _ _ H2) as (_ & _ & Story2).
  assert (SW : startsWithBarrier (body (fn st1) s) = true).
  { destruct (Story1 s) as [[N _]|(_ & _ & w & G & B)]; [tauto|].
    rewrite B. apply startsWithBarrier_Create, G. }
  split; [exact SW|].
  destruct (Story2 s) as [[N B]|(_ & SW' & _)]; [auto | congruence].
Qed.

End Run.

(** ** The predecessor scan and the upward trace *)

Section Trace.

Variable DT_dominates : block_id -> block_id -> bool.
Variable PDT_dominates : block_id -> block_id -> bool.
Variable isBarrierBlock : list instruction -> bool.

Local Abbreviation skip' := (skipBackedges DT_dominates).
Local Abbreviation fnbp' := (firstNonBackedgePredecessor DT_dominates).
Local Abbreviation traceLoop' :=
  (traceLoop DT_dominates PDT_dominates isBarrierBlock).
Local Abbreviation tracePos' :=
  (tracePos DT_dominates PDT_dominates isBarrierBlock).
Local Abbreviation traceEnd' := (traceEnd PDT_dominates isBarrierBlock).

Lemma skipBackedges_all (bb : block_id) (It : list block_id) :
  (forall p, In p It -> DT_dominates bb p = true) ->
  skip' bb It = Fault PastTheEnd.
Proof.
  induction It as [|p It IH]; intros H; simpl; auto.
  rewrite (H p (or_introl eq_refl)). apply IH.
  intros q Hq. apply H. right. exact Hq.
Qed.

Lemma skipBackedges_found (bb : block_id) (It It' : list block_id) :
  skip' bb It = Ok It' ->
  exists p rest, It' = p :: rest /\ DT_dominates bb p = false /\ In p It.
Proof.
  induction It as [|q It IH]; simpl; [discriminate|].
  destruct (DT_dominates bb q) eqn:D.
  - intros H. destruct (IH H) as (p & rest & -> & Hp & Hin).
    exists p, rest. auto.
  - intros [= <-]. exists q, It. auto.
Qed.

Lemma skipBackedges_no_fuel (bb : block_id) (It : list block_id) :
  skip' bb It <> OutOfFuel.
Proof.
  induction It as [|q It IH]; simpl; [discriminate|].
  destruct (DT_dominates bb q); [exact IH | discriminate].
Qed.

(** NULL comes back for a block without predecessors and for no other. *)
Lemma firstNonBackedgePredecessor_null (F : Function) (bb : block_id) :
  fnbp' F bb = Ok None <-> preds F bb = [].
Proof.
  unfold firstNonBackedgePredecessor. split.
  - destruct (preds F bb) as [|q It] eqn:E; auto.
    destruct (skip' bb (q :: It)) as [It'| |] eqn:S; simpl; try discriminate.
    apply skipBackedges_found in S as (p & rest & -> & _). discriminate.
  - intros ->. reflexivity.
Qed.

Lemma firstNonBackedgePredecessor_found (F : Function) (bb p : block_id) :
  fnbp' F bb = Ok (Some p) ->
  In p (preds F bb) /\ DT_dominates bb p = false.
Proof.
  unfold firstNonBackedgePredecessor.
  destruct (preds F bb) as [|q It] eqn:E; [discriminate|].
  destruct (skip' bb (q :: It)) as [It'| |] eqn:S; simpl; try discriminate.
  apply skipBackedges_found in S as (p' & rest & -> & D & Hin).
  intros [= <-]. auto.
Qed.

(** With predecessors that are all sources of back edges the scan runs
    off the list. *)
Lemma firstNonBackedgePredecessor_off_the_end (F : Function) (bb : block_id) :
  preds F bb <> [] ->
  (forall p, In p (preds F bb) -> DT_dominates bb p = true) ->
  fnbp' F bb = Fault PastTheEnd.
Proof.
  unfold firstNonBackedgePredecessor. intros Hne Hall.
  destruct (preds F bb) as [|q It] eqn:E; [congruence|].
  rewrite skipBackedges_all by exact Hall. reflexivity.
Qed.

Lemma firstNonBackedgePredecessor_no_fuel (F : Function) (bb : block_id) :
  fnbp' F bb <> OutOfFuel.
Proof.
  unfold firstNonBackedgePredecessor.
  destruct (preds F bb) as [|q It] eqn:E; [discriminate|].
  pose proof (skipBackedges_no_fuel bb (q :: It)) as N.
  destruct (skip' bb (q :: It)) as [[|]| |]; simpl; congruence.
Qed.

(** One more round of the loop. *)
Lemma traceLoop_continue (fuel : nat) (F : Function) (b p q : block_id) :
  isBarrierBlock (body F p) = false ->
  PDT_dominates b p = true ->
  fnbp' F p = Ok (Some q) ->
  q <> b ->
  traceLoop' (S fuel) F b (Some p) = traceLoop' fuel F b (Some q).
Proof.
  intros BB PD FN Hne. simpl. rewrite BB, PD, FN. simpl.
  apply Nat.eqb_neq in Hne. rewrite Hne. reflexivity.
Qed.

(** When the edges that are not back edges go down along a numbering of
    the blocks (the function is reducible and the numbering is a
    topological order of its forward edges), the trace ends within as many
    rounds as the number of the block it starts from. *)
Lemma traceLoop_ends_when_reducible (rank : block_id -> nat) (F : Function)
      (b : block_id) :
  (forall x p, In p (preds F x) -> DT_dominates x p = false -> rank p < rank x) ->
  forall fuel p, rank p + 1 < fuel ->
                 traceEnd' F b (traceLoop' fuel F b (Some p)).
Proof.
  intros Down. induction fuel as [|fuel IH]; intros p Hp; [lia|].
  simpl. destruct (isBarrierBlock (body F p)) eqn:BB; simpl; auto.
  destruct (PDT_dominates b p) eqn:PD; simpl; auto.
  destruct (fnbp' F p) as [[q|]| |] eqn:FN; simpl; auto.
  - apply firstNonBackedgePredecessor_found in FN as [Hin D].
    specialize (Down _ _ Hin D).
    destruct (Nat.eqb q b) eqn:E.
    + apply Nat.eqb_eq in E. simpl. auto.
    + apply IH. lia.
  - destruct fuel; [lia | exact I].
  - apply firstNonBackedgePredecessor_no_fuel in FN. exact FN.
Qed.

Lemma tracePos_null (fuel : nat) (F : Function) (bb : block_id) :
  preds F bb = [] -> tracePos' (S fuel) F bb = Fault NullPointer.
Proof.
  intros E. unfold tracePos.
  apply firstNonBackedgePredecessor_null in E. rewrite E. reflexivity.
Qed.

Lemma tracePos_off_the_end (fuel : nat) (F : Function) (bb : block_id) :
  preds F bb <> [] ->
  (forall p, In p (preds F bb) -> DT_dominates bb p = true) ->
  tracePos' fuel F bb = Fault PastTheEnd.
Proof.
  intros Hne Hall. unfold tracePos.
  rewrite firstNonBackedgePredecessor_off_the_end; auto.
Qed.

(** C3: for a block whose predecessors are all dominated by it (a block
    without predecessors among them) the scan and the trace do not come
    back with a result: with predecessors the scan reads past the end of
    the list, and without any the loop applies the barrier-block test to
    the null pointer the scan returned. *)
Theorem scan_and_trace_fault (fuel : nat) (F : Function) (bb : block_id) :
  (forall p, In p (preds F bb) -> DT_dominates bb p = true) ->
  fnbp' F bb
  = match preds F bb with [] => Ok None | _ => Fault PastTheEnd end
  /\ tracePos' (S fuel) F bb
     = match preds F bb with
       | [] => Fault NullPointer
       | _ => Fault PastTheEnd
       end.
Proof.
  intros Hall. destruct (preds F bb) as [|q It] eqn:E.
  - split; [|apply tracePos_null, E].
    apply firstNonBackedgePredecessor_null, E.
  - assert (Hne : preds F bb <> []) by congruence.
    rewrite <- E in Hall. split.
    + apply firstNonBackedgePredecessor_off_the_end; auto.
    + apply tracePos_off_the_end; auto.
Qed.

End Trace.

(** ** The pass on concrete functions *)

Lemma concrete_functions_faithful :
  forallb (fun F => wellFormed F && searchesComplete F)
          [diamondUnsafe; diamondSafe; bothArms; deadBarrier; deadLoop;
           twoEntryLoop; loopBypass] = true.
Proof. vm_compute. reflexivity. Qed.

(** Scenario A: the barrier in the join block post-dominates the entry
    block, the list stays empty and the pass returns false. *)
Lemma unconditional_barriers_left_alone_witness :
  postdominates_ref diamondSafe 4 (getEntryBlock diamondSafe) = true
  /\ conditionalBarriers (postdominates_ref diamondSafe) startsWithBarrier
                         diamondSafe = []
  /\ forall fuel, run fuel diamondSafe = Ok (mkState diamondSafe false []).
Proof.
  split; [vm_compute; reflexivity|]. split; [vm_compute; reflexivity|].
  destruct (@unconditional_barriers_left_alone
              (dominates_ref diamondSafe) (postdominates_ref diamondSafe)
              everyFunction startsWithBarrier startsWithBarrier diamondSafe)
    as (_ & _ & Empty & _).
  apply Empty. vm_compute. reflexivity.
Defined.

(** Scenario B: the split point of block 2 is block 1, and block 3 gets the
    marker. *)
Lemma diamondUnsafe_run :
  exists st,
    run 6 diamondUnsafe = Ok st
    /\ changed st = true
    /\ trail st = [Traced 2; SplitPoint 2 1; Injected 3]
    /\ map (body (fn st)) [0; 1; 2; 3; 4]
       = [[Other 10; Terminator [1]];
          [Other 11; Terminator [2; 3]];
          [BarrierCall; Terminator [4]];
          [BarrierCall; Other 13; Terminator [4]];
          [PHINode 14; Other 15; Terminator []]].
Proof. eexists. split; [vm_compute; reflexivity|]. repeat split. Qed.

(** The block that received its marker would be a conditional barrier of
    the function that comes out, yet it was not on the list of the run. *)
Lemma diamondUnsafe_new_barrier_not_traced :
  conditionalBarriers (postdominates_ref diamondUnsafe) startsWithBarrier
                      diamondUnsafe = [2]
  /\ conditionalBarriers (postdominates_ref diamondUnsafe) startsWithBarrier
                         (fn (endState 6 diamondUnsafe)) = [2; 3]
  /\ tracedBlocks (trail (endState 6 diamondUnsafe)) = [2].
Proof. vm_compute. auto. Qed.

(** Scenario C: the trace from block 2 passes the loop header 1, skips its
    back edge and stops at block 0; both successors of block 0 get a marker,
    the loop header behind its PHI node. *)
Lemma loopBypass_run :
  exists st,
    run 6 loopBypass = Ok st
    /\ changed st = true
    /\ trail st = [Traced 2; SplitPoint 2 0; Injected 1; Injected 3]
    /\ map (body (fn st)) [0; 1; 2; 3]
       = [[Other 10; Terminator [1; 3]];
          [PHINode 11; BarrierCall; Other 12; Terminator [1; 2]];
          [BarrierCall; Terminator [3]];
          [BarrierCall; Other 13; Terminator []]].
Proof. eexists. split; [vm_compute; reflexivity|]. repeat split. Qed.

(** In scenario C the block numbers go down along every edge that is not a
    back edge, so every trace in it ends. *)
Lemma loopBypass_traces_end (fuel : nat) (b p : block_id) :
  p + 1 < fuel ->
  traceEnd (postdominates_ref loopBypass) startsWithBarrier loopBypass b
           (traceLoop (dominates_ref loopBypass) (postdominates_ref loopBypass)
                      startsWithBarrier fuel loopBypass b (Some p)).
Proof.
  apply (@traceLoop_ends_when_reducible
           (dominates_ref loopBypass) (postdominates_ref loopBypass)
           startsWithBarrier (fun x => x) loopBypass b).
  intros x q Hin D.
  destruct x as [|[|[|[|x]]]]; simpl in Hin;
    repeat (destruct Hin as [<-|Hin]); try contradiction; try lia.
  vm_compute in D. discriminate D.
Qed.

(** C1, counterexample: both arms of the branch in block 0 start with a
    barrier; block 0 is found as the split point of each, no marker is
    inserted, the function comes back as it was, and the pass returns
    true. *)
Lemma true_without_insertion :
  wellFormed bothArms = true
  /\ searchesComplete bothArms = true
  /\ exists st,
      run 6 bothArms = Ok st
      /\ changed st = true
      /\ fn st = bothArms
      /\ trail st = [Traced 1; SplitPoint 1 0; Traced 2; SplitPoint 2 0]
      /\ forall s, ~ In (Injected s) (trail st).
Proof.
  split; [vm_compute; reflexivity|]. split; [vm_compute; reflexivity|].
  exists (mkState bothArms true [Traced 1; SplitPoint 1 0; Traced 2; SplitPoint 2 0]).
  split; [vm_compute; reflexivity|]. simpl. repeat split.
  intros s [H|[H|[H|[H|[]]]]]; discriminate.
Qed.

(** C2, on two functions with a barrier in an unreachable block.  In
    [deadLoop] all predecessors of block 2 are sources of back edges: the
    scan does not return NULL, it reads past the end of the list.  In
    [deadBarrier] block 2 has no predecessor: the scan returns NULL, and the
    run does not skip the barrier, it stops in the barrier-block test on
    NULL. *)
Theorem null_ancestor_not_skipped :
  wellFormed deadLoop = true /\ wellFormed deadBarrier = true
  /\ (forall p, In p (preds deadLoop 2) -> dominates_ref deadLoop 2 p = true)
  /\ firstNonBackedgePredecessor (dominates_ref deadLoop) deadLoop 2
     = Fault PastTheEnd
  /\ (forall fuel, run fuel deadLoop = Fault PastTheEnd)
  /\ firstNonBackedgePredecessor (dominates_ref deadBarrier) deadBarrier 2
     = Ok None
  /\ (forall fuel, run (S fuel) deadBarrier = Fault NullPointer).
Proof.
  split; [vm_compute; reflexivity|]. split; [vm_compute; reflexivity|].
  assert (Back : forall p, In p (preds deadLoop 2) ->
                           dominates_ref deadLoop 2 p = true).
  { intros p Hp. vm_compute in Hp. destruct Hp as [<-|[]].
    vm_compute. reflexivity. }
  assert (Off : forall fuel,
             tracePos (dominates_ref deadLoop) (postdominates_ref deadLoop)
                      startsWithBarrier fuel deadLoop 2 = Fault PastTheEnd).
  { intros fuel. apply tracePos_off_the_end; [|exact Back].
    vm_compute. discriminate. }
  assert (Null : forall fuel,
             tracePos (dominates_ref deadBarrier) (postdominates_ref deadBarrier)
                      startsWithBarrier (S fuel) deadBarrier 2
             = Fault NullPointer).
  { intros fuel. apply tracePos_null. reflexivity. }
  split; [exact Back|].
  split; [vm_compute; reflexivity|]. split; [|split].
  - intros fuel. unfold run.
    rewrite first_barrier_stops with (b := 2) (bs := []).
    + rewrite Off. reflexivity.
    + reflexivity.
    + vm_compute. reflexivity.
    + intros pos. rewrite Off. discriminate.
  - vm_compute. reflexivity.
  - intros fuel. unfold run.
    rewrite first_barrier_stops with (b := 2) (bs := []).
    + rewrite Null. reflexivity.
    + reflexivity.
    + vm_compute. reflexivity.
    + intros pos. rewrite Null. discriminate.
Qed.

(** C4, on a function with a loop that has two entries: the trace from the
    barrier in block 4 walks from block 2 to block 3 and back for ever;
    no amount of fuel brings the run to an end. *)
Theorem trace_runs_forever :
  wellFormed twoEntryLoop = true
  /\ searchesComplete twoEntryLoop = true
  /\ (~ Dominates twoEntryLoop 2 3 /\ ~ Dominates twoEntryLoop 3 2
      /\ PostDominates twoEntryLoop 4 2 /\ PostDominates twoEntryLoop 4 3
      /\ ~ PostDominates twoEntryLoop 4 0)
  /\ conditionalBarriers (postdominates_ref twoEntryLoop) startsWithBarrier
                         twoEntryLoop = [4]
  /\ forall fuel, run fuel twoEntryLoop = OutOfFuel.
Proof.
  split; [vm_compute; reflexivity|]. split; [vm_compute; reflexivity|].
  split.
  { assert (Exact := searchesComplete_exact twoEntryLoop eq_refl).
    assert (L : forall x, x < 6 -> In x (layout twoEntryLoop))
      by (intros x Hx; simpl; lia).
    repeat split.
    - intros D. apply (Exact 2 3) in D; [discriminate D | |]; apply L; lia.
    - intros D. apply (Exact 3 2) in D; [discriminate D | |]; apply L; lia.
    - apply (Exact 4 2); [| |vm_compute; reflexivity]; apply L; lia.
    - apply (Exact 4 3); [| |vm_compute; reflexivity]; apply L; lia.
    - intros D. apply (Exact 4 0) in D; [discriminate D | |]; apply L; lia. }
  split; [vm_compute; reflexivity|].
  assert (Spin : forall fuel,
             traceLoop (dominates_ref twoEntryLoop) (postdominates_ref twoEntryLoop)
                       startsWithBarrier fuel twoEntryLoop 4 (Some 2) = OutOfFuel
             /\ traceLoop (dominates_ref twoEntryLoop) (postdominates_ref twoEntryLoop)
                          startsWithBarrier fuel twoEntryLoop 4 (Some 3) = OutOfFuel).
  { induction fuel as [|fuel [IH2 IH3]]; [split; reflexivity|]. split.
    - rewrite traceLoop_continue with (q := 3).
      + exact IH3.
      + vm_compute. reflexivity.
      + vm_compute. reflexivity.
      + vm_compute. reflexivity.
      + discriminate.
    - rewrite traceLoop_continue with (q := 2).
      + exact IH2.
      + vm_compute. reflexivity.
      + vm_compute. reflexivity.
      + vm_compute. reflexivity.
      + discriminate. }
  assert (T : forall fuel,
             tracePos (dominates_ref twoEntryLoop) (postdominates_ref twoEntryLoop)
                      startsWithBarrier fuel twoEntryLoop 4 = OutOfFuel).
  { intros fuel. unfold tracePos.
    replace (firstNonBackedgePredecessor (dominates_ref twoEntryLoop) twoEntryLoop 4)
      with (@Ok (option block_id) (Some 2)) by (vm_compute; reflexivity).
    simpl. apply Spin. }
  intros fuel. unfold run.
  rewrite first_barrier_stops with (b := 4) (bs := []).
  - rewrite T. reflexivity.
  - reflexivity.
  - vm_compute. reflexivity.
  - intros pos. rewrite T. discriminate.
Qed.

(** ** The statements at work on scenario B *)

Lemma changed_iff_split_point_witness :
  run 6 diamondUnsafe = Ok diamondRepaired
  /\ ((changed diamondRepaired = true
       <-> exists b p, In (SplitPoint b p) (trail diamondRepaired))
      /\ ((exists s, In (Injected s) (trail diamondRepaired)) ->
          changed diamondRepaired = true)
      /\ (forall s, In (Injected s) (trail diamondRepaired)
                    <-> body (fn diamondRepaired) s <> body diamondUnsafe s)
      /\ (changed diamondRepaired = false -> fn diamondRepaired = diamondUnsafe)).
Proof.
  split; [vm_compute; reflexivity|].
  apply (@changed_iff_split_point
           (dominates_ref diamondUnsafe) (postdominates_ref diamondUnsafe)
           everyFunction startsWithBarrier startsWithBarrier 6 diamondUnsafe).
  vm_compute. reflexivity.
Defined.

Lemma split_point_successors_get_barrier_witness :
  tracePos (dominates_ref diamondUnsafe) (postdominates_ref diamondUnsafe)
           startsWithBarrier 6 diamondUnsafe 2 = Ok (Some 1)
  /\ exists st',
      processBarrier (dominates_ref diamondUnsafe) (postdominates_ref diamondUnsafe)
                     startsWithBarrier 6 2 (initial diamondUnsafe) = Ok st'
      /\ changed st' = true
      /\ layout (fn st') = layout diamondUnsafe
      /\ preds (fn st') = preds diamondUnsafe
      /\ (forall s, In s [2; 3] ->
                    startsWithBarrier (body diamondUnsafe s) = true ->
                    body (fn st') s = body diamondUnsafe s)
      /\ (forall s, In s [2; 3] ->
                    startsWithBarrier (body diamondUnsafe s) = false ->
                    exists where_,
                      getFirstNonPHI (body diamondUnsafe s) = Some where_
                      /\ Forall (fun i => isaPHINode i = true)
                                (firstn where_ (body diamondUnsafe s))
                      /\ body (fn st') s
                         = firstn where_ (body diamondUnsafe s)
                           ++ BarrierCall :: skipn where_ (body diamondUnsafe s))
      /\ (forall s, ~ In s [2; 3] -> body (fn st') s = body diamondUnsafe s)
      /\ (forall s, In (Injected s) (trail st') <->
                    In (Injected s) []
                    \/ (In s [2; 3]
                        /\ startsWithBarrier (body diamondUnsafe s) = false)).
Proof.
  split; [vm_compute; reflexivity|].
  apply (@split_point_successors_get_barrier
           (dominates_ref diamondUnsafe) (postdominates_ref diamondUnsafe)
           startsWithBarrier 6 2 1 [2; 3] (initial diamondUnsafe)).
  - vm_compute. reflexivity.
  - reflexivity.
  - lia.
  - reflexivity.
  - intros s [<-|[<-|[]]]; simpl; discriminate.
Defined.

Lemma only_markers_are_added_witness :
  run 6 diamondUnsafe = Ok diamondRepaired
  /\ layout (fn diamondRepaired) = layout diamondUnsafe
  /\ preds (fn diamondRepaired) = preds diamondUnsafe
  /\ (forall x, getTerminator (body (fn diamondRepaired) x)
                = getTerminator (body diamondUnsafe x))
  /\ (forall x, successors (fn diamondRepaired) x = successors diamondUnsafe x)
  /\ (forall x,
         body (fn diamondRepaired) x = body diamondUnsafe x
         \/ exists where_,
             getFirstNonPHI (body diamondUnsafe x) = Some where_
             /\ Forall (fun i => isaPHINode i = true)
                       (firstn where_ (body diamondUnsafe x))
             /\ body (fn diamondRepaired) x
                = firstn where_ (body diamondUnsafe x)
                  ++ BarrierCall :: skipn where_ (body diamondUnsafe x))
  /\ (forall x,
         filter (fun i => negb (isaBarrier i)) (body (fn diamondRepaired) x)
         = filter (fun i => negb (isaBarrier i)) (body diamondUnsafe x))
  /\ (forall a b,
         (Dominates (fn diamondRepaired) a b <-> Dominates diamondUnsafe a b)
         /\ (PostDominates (fn diamondRepaired) a b
             <-> PostDominates diamondUnsafe a b)).
Proof.
  split; [vm_compute; reflexivity|].
  apply (@only_markers_are_added
           (dominates_ref diamondUnsafe) (postdominates_ref diamondUnsafe)
           everyFunction startsWithBarrier startsWithBarrier 6 diamondUnsafe).
  vm_compute. reflexivity.
Defined.

Lemma second_run_skips_repaired_sites_witness :
  In (Injected 3) (trail diamondRepaired)
  /\ changed diamondRepairedAgain = true
  /\ startsWithBarrier (body (fn diamondRepaired) 3) = true
  /\ ~ In (Injected 3) (trail diamondRepairedAgain)
  /\ body (fn diamondRepairedAgain) 3 = body (fn diamondRepaired) 3.
Proof.
  split; [vm_compute; auto|]. split; [vm_compute; reflexivity|].
  apply (@second_run_skips_repaired_sites
           (dominates_ref diamondUnsafe) (postdominates_ref diamondUnsafe)
           everyFunction startsWithBarrier startsWithBarrier 6 6 diamondUnsafe
           diamondRepaired diamondRepairedAgain).
  - vm_compute. reflexivity.
  - vm_compute. reflexivity.
  - vm_compute. auto.
Defined.

Lemma worklist_fixed_before_mutation_witness :
  run 6 diamondUnsafe = Ok diamondRepaired
  /\ tracedBlocks (trail diamondRepaired)
     = (if everyFunction diamondUnsafe
        then conditionalBarriers (postdominates_ref diamondUnsafe)
                                 startsWithBarrier diamondUnsafe
        else [])
  /\ (forall b p, In (SplitPoint b p) (trail diamondRepaired) ->
                  In b (conditionalBarriers (postdominates_ref diamondUnsafe)
                                            startsWithBarrier diamondUnsafe))
  /\ (forall s, In (Injected s) (trail diamondRepaired) ->
                ~ In s (conditionalBarriers (postdominates_ref diamondUnsafe)
                                            startsWithBarrier diamondUnsafe) ->
                ~ In s (tracedBlocks (trail diamondRepaired))).
Proof.
  split; [vm_compute; reflexivity|].
  apply (@worklist_fixed_before_mutation
           (dominates_ref diamondUnsafe) (postdominates_ref diamondUnsafe)
           everyFunction startsWithBarrier startsWithBarrier 6 diamondUnsafe).
  vm_compute. reflexivity.
Defined.

Lemma non_kernel_untouched_witness :
  noFunction diamondUnsafe = false
  /\ runOnFunction (dominates_ref diamondUnsafe) (postdominates_ref diamondUnsafe)
                   noFunction startsWithBarrier startsWithBarrier 6 diamondUnsafe
     = Ok (mkState diamondUnsafe false []).
Proof.
  split; [reflexivity|].
  apply (@non_kernel_untouched
           (dominates_ref diamondUnsafe) (postdominates_ref diamondUnsafe)
           noFunction startsWithBarrier startsWithBarrier 6 diamondUnsafe).
  reflexivity.
Defined.

Lemma scan_and_trace_fault_witness :
  preds deadLoop 2 = [2]
  /\ dominates_ref deadLoop 2 2 = true
  /\ firstNonBackedgePredecessor (dominates_ref deadLoop) deadLoop 2
     = Fault PastTheEnd
  /\ tracePos (dominates_ref deadLoop) (postdominates_ref deadLoop)
              startsWithBarrier 6 deadLoop 2 = Fault PastTheEnd.
Proof.
  split; [reflexivity|]. split; [vm_compute; reflexivity|].
  apply (@scan_and_trace_fault
           (dominates_ref deadLoop) (postdominates_ref deadLoop)
           startsWithBarrier 5 deadLoop 2).
  intros p Hp. vm_compute in Hp. destruct Hp as [<-|[]]. vm_compute. reflexivity.
Defined.

(** * Further properties of the pass *)

(** ** The predecessor scan (lines 70-81) *)

Section Scan.

Variable DT_dominates : block_id -> block_id -> bool.

Local Abbreviation skip' := (skipBackedges DT_dominates).
Local Abbreviation fnbp' := (firstNonBackedgePredecessor DT_dominates).

Lemma skipBackedges_prefix (bb : block_id) (It It' : list block_id) :
  skip' bb It = Ok It' ->
  exists l1, It = l1 ++ It' /\ forall q, In q l1 -> DT_dominates bb q = true.
Proof.
  revert It'. induction It as [|q It IH]; intros It'; simpl; [discriminate|].
  destruct (DT_dominates bb q) eqn:D.
  - intros H. destruct (IH _ H) as (l1 & -> & Hall).
    exists (q :: l1). split; [reflexivity|].
    intros r [<-|Hr]; auto.
  - intros [= <-]. exists []. split; [reflexivity|]. intros r [].
Qed.

Lemma skipBackedges_over (bb : block_id) (l1 rest : list block_id) (p : block_id) :
  (forall q, In q l1 -> DT_dominates bb q = true) ->
  DT_dominates bb p = false ->
  skip' bb (l1 ++ p :: rest) = Ok (p :: rest).
Proof.
  intros Hall D. induction l1 as [|q l1 IH]; simpl.
  - rewrite D. reflexivity.
  - rewrite (Hall q (or_introl eq_refl)). apply IH.
    intros r Hr. apply Hall. right. exact Hr.
Qed.

Lemma skipBackedges_some (bb p : block_id) (It : list block_id) :
  In p It -> DT_dominates bb p = false ->
  exists q rest, skip' bb It = Ok (q :: rest).
Proof.
  induction It as [|r It IH]; intros Hin D; [destruct Hin|]. simpl.
  destruct (DT_dominates bb r) eqn:Dr.
  - destruct Hin as [<-|Hin]; [congruence|]. apply IH; auto.
  - eauto.
Qed.

Lemma firstNonBackedgePredecessor_over (F : Function) (bb p : block_id)
      (l1 l2 : list block_id) :
  preds F bb = l1 ++ p :: l2 ->
  (forall q, In q l1 -> DT_dominates bb q = true) ->
  DT_dominates bb p = false ->
  fnbp' F bb = Ok (Some p).
Proof.
  intros E Hall D. unfold firstNonBackedgePredecessor. rewrite E.
  pose proof (skipBackedges_over l1 l2 Hall D) as S.
  destruct (l1 ++ p :: l2) as [|q It] eqn:A.
  - destruct l1; discriminate.
  - rewrite S. reflexivity.
Qed.

(** X1: the scan returns a block exactly when that block is the first of
    the predecessors, in their order, that the scanned block does not
    dominate. *)
Theorem scan_returns_first_forward_predecessor (F : Function) (bb p : block_id) :
  fnbp' F bb = Ok (Some p)
  <-> exists l1 l2, preds F bb = l1 ++ p :: l2
                    /\ (forall q, In q l1 -> DT_dominates bb q = true)
                    /\ DT_dominates bb p = false.
Proof.
  unfold firstNonBackedgePredecessor. split.
  - destruct (preds F bb) as [|q It] eqn:E; [discriminate|].
    destruct (skip' bb (q :: It)) as [It'| |] eqn:S; simpl; try discriminate.
    pose proof S as S'. apply skipBackedges_found in S' as (p' & rest & -> & D & _).
    apply skipBackedges_prefix in S as (l1 & El & Hall).
    intros [= <-]. exists l1, rest. auto.
  - intros (l1 & l2 & E & Hall & D).
    apply (firstNonBackedgePredecessor_over _ _ _ E Hall D).
Qed.

(** X2: the three ways the scan can end.  It returns what [find] returns
    for "not dominated by the scanned block" whenever [find] returns a
    block; it returns NULL exactly when there is no predecessor; and it
    reads past the end exactly when there are predecessors and the block
    dominates them all. *)
Theorem scan_outcomes (F : Function) (bb : block_id) :
  fnbp' F bb
  = match firstForward DT_dominates F bb with
    | Some p => Ok (Some p)
    | None => match preds F bb with
              | [] => Ok None
              | _ => Fault PastTheEnd
              end
    end.
Proof.
  unfold firstForward.
  destruct (find (fun p => negb (DT_dominates bb p)) (preds F bb)) as [p|] eqn:Fd.
  - assert (H : exists l1 l2, preds F bb = l1 ++ p :: l2
                /\ (forall q, In q l1 -> DT_dominates bb q = true)
                /\ DT_dominates bb p = false).
    { clear - Fd. induction (preds F bb) as [|q It IH]; [discriminate|].
      simpl in Fd. destruct (DT_dominates bb q) eqn:D; simpl in Fd.
      - destruct (IH Fd) as (l1 & l2 & -> & Hall & Dp).
        exists (q :: l1), l2. split; [reflexivity|]. split; [|exact Dp].
        intros r [<-|Hr]; auto.
      - injection Fd as <-. exists [], It. split; [reflexivity|].
        split; [intros r []|exact D]. }
    destruct H as (l1 & l2 & E & Hall & D).
    apply (firstNonBackedgePredecessor_over _ _ _ E Hall D).
  - destruct (preds F bb) as [|q It] eqn:E.
    + unfold firstNonBackedgePredecessor. rewrite E. reflexivity.
    + apply firstNonBackedgePredecessor_off_the_end; [congruence|].
      intros r Hr. rewrite E in Hr.
      pose proof (find_none _ _ Fd r Hr) as N. simpl in N.
      destruct (DT_dominates bb r); [reflexivity | discriminate].
Qed.

End Scan.

(** ** The loop over the successors (lines 147-157) *)

Lemma startsWithBarrier_withBarrierAtHead (l : list instruction) :
  getFirstNonPHI l <> None -> startsWithBarrier (withBarrierAtHead l) = true.
Proof.
  intros G. destruct (startsWithBarrier l) eqn:SW.
  - rewrite withBarrierAtHead_fixed; auto.
  - destruct (getFirstNonPHI l) as [w|] eqn:E; [|congruence].
    rewrite (withBarrierAtHead_insert l E SW).
    apply startsWithBarrier_Create, E.
Qed.

Lemma injectLoop_nothing_to_do (succs : list block_id) (F : Function) :
  (forall s, In s succs -> startsWithBarrier (body F s) = true) ->
  injectLoop F succs = Ok (F, []).
Proof.
  induction succs as [|s rest IH]; intros H; simpl; auto.
  pose proof (H s (or_introl eq_refl)) as SW. unfold startsWithBarrier in SW.
  destruct (getFirstNonPHI (body F s)) as [w|]; [|discriminate].
  destruct (nth_error (body F s) w) as [i|]; [|discriminate].
  rewrite SW. apply IH. intros x Hx. apply H. right. exact Hx.
Qed.

Lemma injectLoop_all_start (succs : list block_id) (F F' : Function)
      (ev : list event) :
  injectLoop F succs = Ok (F', ev) ->
  forall s, In s succs -> startsWithBarrier (body F' s) = true.
Proof.
  intros H s Hs. destruct (injectLoop_spec _ _ H) as (_ & _ & In1 & _ & Hd & _).
  rewrite In1 by assumption. apply startsWithBarrier_withBarrierAtHead, Hd, Hs.
Qed.

Lemma injectLoop_keeps_barriers (succs : list block_id) (F F' : Function)
      (ev : list event) (x : block_id) :
  injectLoop F succs = Ok (F', ev) ->
  startsWithBarrier (body F x) = true -> body F' x = body F x.
Proof.
  intros H SW. destruct (injectLoop_spec _ _ H) as (_ & _ & In1 & Out1 & _).
  destruct (in_dec Nat.eq_dec x succs) as [Hx|Hx].
  - rewrite In1, withBarrierAtHead_fixed; auto.
  - apply Out1, Hx.
Qed.

(** X3: when the loop over the successors has run, every successor it was
    given starts with a barrier marker, and running the loop again over the
    same successors inserts nothing and leaves the function as it is. *)
Theorem successor_loop_reaches_fixed_point
        (succs : list block_id) (F F' : Function) (ev : list event) :
  injectLoop F succs = Ok (F', ev) ->
  (forall s, In s succs -> startsWithBarrier (body F' s) = true)
  /\ injectLoop F' succs = Ok (F', []).
Proof.
  intros H. split.
  - apply (injectLoop_all_start _ _ H).
  - apply injectLoop_nothing_to_do. apply (injectLoop_all_start _ _ H).
Qed.

(** X4: the outcome of the loop over the successors does not depend on
    their order or on repetitions among them: two successor lists with the
    same members lead to the same instruction list in every block and to
    markers in the same blocks. *)
Theorem successor_loop_order_irrelevant
        (l1 l2 : list block_id) (F F1 F2 : Function) (ev1 ev2 : list event) :
  (forall x, In x l1 <-> In x l2) ->
  injectLoop F l1 = Ok (F1, ev1) ->
  injectLoop F l2 = Ok (F2, ev2) ->
  (forall x, body F1 x = body F2 x)
  /\ layout F1 = layout F2 /\ preds F1 = preds F2
  /\ (forall s, In (Injected s) ev1 <-> In (Injected s) ev2).
Proof.
  intros Same H1 H2.
  destruct (injectLoop_spec _ _ H1) as (L1 & P1 & In1 & Out1 & _ & Ev1).
  destruct (injectLoop_spec _ _ H2) as (L2 & P2 & In2 & Out2 & _ & Ev2).
  split; [|split; [congruence|split; [congruence|]]].
  - intros x. destruct (in_dec Nat.eq_dec x l1) as [Hx|Hx].
    + rewrite In1, In2; auto. apply Same, Hx.
    + rewrite Out1, Out2; auto. intros Hx2. apply Hx, Same, Hx2.
  - intros s. rewrite Ev1, Ev2. split.
    + intros (s0 & E & Hs & SW). exists s0. repeat split; auto. apply Same, Hs.
    + intros (s0 & E & Hs & SW). exists s0. repeat split; auto. apply Same, Hs.
Qed.

(** ** Where the trace ends, and what a run leaves at the split points *)

Section SplitPoints.

Variable DT_dominates : block_id -> block_id -> bool.
Variable PDT_dominates : block_id -> block_id -> bool.
Variable isKernelToProcess : Function -> bool.
Variable hasBarrier : list instruction -> bool.
Variable isBarrierBlock : list instruction -> bool.

Local Abbreviation fnbp' := (firstNonBackedgePredecessor DT_dominates).
Local Abbreviation traceLoop' :=
  (traceLoop DT_dominates PDT_dominates isBarrierBlock).
Local Abbreviation tracePos' :=
  (tracePos DT_dominates PDT_dominates isBarrierBlock).
Local Abbreviation processBarrier' :=
  (processBarrier DT_dominates PDT_dominates isBarrierBlock).
Local Abbreviation processAll' :=
  (processAll DT_dominates PDT_dominates isBarrierBlock).
Local Abbreviation runOnFunction' :=
  (runOnFunction DT_dominates PDT_dominates isKernelToProcess
                 hasBarrier isBarrierBlock).
Local Abbreviation climb' := (climb DT_dominates PDT_dominates).
Local Abbreviation splitFacts' := (splitFacts DT_dominates PDT_dominates).

Lemma traceLoop_climbs (F : Function) (b : block_id) (fuel : nat) :
  forall y r,
    traceLoop' fuel F b (Some y) = Ok r ->
    exists p, r = Some p /\ climb' F b y p
              /\ (isBarrierBlock (body F p) = true
                  \/ PDT_dominates b p = false \/ p = b).
Proof.
  induction fuel as [|fuel IH]; intros y r H; simpl in H; [discriminate|].
  destruct (isBarrierBlock (body F y)) eqn:BB; simpl in H.
  { injection H as <-. exists y. repeat split; auto. apply climb_here. }
  destruct (PDT_dominates b y) eqn:PD; simpl in H.
  2:{ injection H as <-. exists y. repeat split; auto. apply climb_here. }
  destruct (fnbp' F y) as [[q|]| |] eqn:FN; simpl in H; try discriminate.
  - pose proof FN as FN'.
    apply firstNonBackedgePredecessor_found in FN' as [Hin D].
    destruct (Nat.eqb q b) eqn:E.
    + injection H as <-. apply Nat.eqb_eq in E. subst q.
      exists b. repeat split; auto.
      apply climb_up with b; auto. apply climb_here.
    + destruct (IH _ _ H) as (p & -> & C & End).
      exists p. repeat split; auto. apply climb_up with q; auto.
  - destruct fuel; discriminate.
Qed.

Lemma climb_same_preds (F F' : Function) (b y p : block_id) :
  preds F' = preds F -> climb' F' b y p -> climb' F b y p.
Proof.
  intros E C. induction C as [y|y q r PD Hin D _ IH].
  - apply climb_here.
  - apply climb_up with q; auto. rewrite <- E. exact Hin.
Qed.

Lemma climb_walk (F : Function) (b y p : block_id) :
  (forall x q, In q (preds F x) -> In x (successors F q)) ->
  climb' F b y p -> walk F p y.
Proof.
  intros Edge C. induction C as [y|y q r PD Hin D _ IH].
  - apply walk_here.
  - apply walk_edge with q; auto.
Qed.

(** X5: when the trace of lines 121-135 returns, it returns a block, never
    NULL; the block is a barrier block, or one the barrier does not
    post-dominate, or the barrier itself; and it was reached from the first
    forward predecessor of the barrier by climbing only along edges that
    are not back edges, out of blocks that the barrier post-dominates. *)
Theorem trace_returns_forward_ancestor (fuel : nat) (F : Function)
        (b : block_id) (r : option block_id) :
  tracePos' fuel F b = Ok r ->
  exists y p,
    r = Some p
    /\ In y (preds F b) /\ DT_dominates b y = false
    /\ climb' F b y p
    /\ (isBarrierBlock (body F p) = true \/ PDT_dominates b p = false \/ p = b).
Proof.
  unfold tracePos. intros H.
  destruct (fnbp' F b) as [[y|]| |] eqn:FN; simpl in H; try discriminate.
  - apply firstNonBackedgePredecessor_found in FN as [Hin D].
    destruct (traceLoop_climbs _ _ _ _ H) as (p & -> & C & End).
    exists y, p. auto.
  - destruct fuel; discriminate.
Qed.

Lemma tracePos_climbs (fuel : nat) (F : Function) (b p : block_id) :
  tracePos' fuel F b = Ok (Some p) ->
  (isBarrierBlock (body F p) = true \/ PDT_dominates b p = false \/ p = b)
  /\ exists y, In y (preds F b) /\ DT_dominates b y = false /\ climb' F b y p.
Proof.
  unfold tracePos. intros H.
  destruct (fnbp' F b) as [[y|]| |] eqn:FN; simpl in H; try discriminate.
  - apply firstNonBackedgePredecessor_found in FN as [Hin D].
    destruct (traceLoop_climbs _ _ _ _ H) as (p' & [= <-] & C & End).
    split; eauto.
  - destruct fuel; discriminate.
Qed.

Lemma graphKept_terminators (F : Function) (st : pass_state) :
  graphKept F st ->
  forall x, getTerminator (body (fn st) x) = getTerminator (body F x).
Proof.
  intros (_ & _ & Story) x.
  destruct (Story x) as [[_ B]|(_ & _ & w & G & B)]; rewrite B; auto.
  apply getTerminator_Create, G.
Qed.

Lemma splitFacts_initial (F : Function) : splitFacts' F (initial F).
Proof. split; simpl; [intros s [] | intros b p []]. Qed.

Lemma splitFacts_step (F : Function) (fuel : nat) (b : block_id)
      (st st' : pass_state) :
  graphKept F st /\ splitFacts' F st ->
  processBarrier' fuel b st = Ok st' ->
  graphKept F st' /\ splitFacts' F st'.
Proof.
  intros [GK [Inj Spl]] H.
  split; [eapply graphKept_step; eauto|].
  apply processBarrier_cases in H
    as [(Hf & _ & Ht)
       | (p & succs & ev & T & BB & Hne & GT & IL & _ & Ht)].
  - unfold splitFacts. rewrite Hf, Ht. split.
    + intros s Hs. apply in_app_or in Hs as [Hs|[Hs|[]]]; [|discriminate].
      destruct (Inj s Hs) as (b0 & p0 & I0 & S0). exists b0, p0.
      split; auto. apply in_or_app. auto.
    + intros b0 p0 I0.
      apply in_app_or in I0 as [I0|[I0|[]]]; [auto | discriminate].
  - assert (SC : successors F p = succs).
    { unfold successors. rewrite <- (graphKept_terminators GK p), GT.
      reflexivity. }
    assert (New : In (SplitPoint b p) (trail st')).
    { rewrite Ht. apply in_or_app. right. simpl. auto. }
    destruct (injectLoop_spec _ _ IL) as (_ & _ & _ & _ & _ & Ev).
    split.
    + intros s Hs. rewrite Ht in Hs.
      apply in_app_or in Hs as [Hs|[Hs|[Hs|Hs]]]; try discriminate.
      * destruct (Inj s Hs) as (b0 & p0 & I0 & S0). exists b0, p0.
        split; auto. rewrite Ht. apply in_or_app. auto.
      * apply Ev in Hs as (s0 & [= <-] & Hs0 & _).
        exists b, p. rewrite SC. auto.
    + intros b0 p0 I0. rewrite Ht in I0.
      apply in_app_or in I0 as [I0|[I0|[I0|I0]]]; try discriminate.
      * destruct (Spl _ _ I0) as (SW & Rest). split; auto.
        intros s Hs.
        rewrite (@injectLoop_keeps_barriers succs (fn st) (fn st') ev s IL);
          auto.
      * injection I0 as <- <-. split; [|split; [|split; [exact Hne|]]].
        -- intros s Hs. rewrite SC in Hs.
           apply (@injectLoop_all_start succs (fn st) (fn st') ev IL), Hs.
        -- destruct (tracePos_climbs _ _ _ T) as [[E|[E|E]] _]; congruence.
        -- destruct GK as (_ & P & _).
           destruct (tracePos_climbs _ _ _ T) as [_ (y & Hin & D & C)].
           exists y. rewrite <- P. split; auto. split; auto.
           apply climb_same_preds with (fn st); auto.
      * exfalso. apply Ev in I0 as (s0 & [=] & _).
Qed.

Lemma splitFacts_run (fuel : nat) (F : Function) (st : pass_state) :
  runOnFunction' fuel F = Ok st -> graphKept F st /\ splitFacts' F st.
Proof.
  intros H. apply runOnFunction_cases in H as [[-> _]|(_ & _ & HP)].
  - split; [apply graphKept_initial | apply splitFacts_initial].
  - eapply processAll_preserves
      with (P := fun s => graphKept F s /\ splitFacts' F s); [| |exact HP].
    + intros b s s'. apply splitFacts_step.
    + split; [apply graphKept_initial | apply splitFacts_initial].
Qed.

(** X6: a run changes only blocks that a split point branches to: a block
    whose instruction list differs from the input is a successor of a block
    that the run found as a split point. *)
Theorem markers_only_below_split_points (fuel : nat) (F : Function)
        (st : pass_state) (s : block_id) :
  runOnFunction' fuel F = Ok st ->
  body (fn st) s <> body F s ->
  exists b p, In (SplitPoint b p) (trail st) /\ In s (successors F p).
Proof.
  intros H Hs. destruct (splitFacts_run _ _ H) as [(_ & _ & Story) [Inj _]].
  apply Inj. destruct (Story s) as [[_ B]|(I & _)]; [contradiction | exact I].
Qed.

(** X7: when a run is over, every successor of every split point it found
    starts with a barrier marker, also the successors that later split
    points share. *)
Theorem split_point_successors_all_start_with_barrier
        (fuel : nat) (F : Function) (st : pass_state) (b p s : block_id) :
  runOnFunction' fuel F = Ok st ->
  In (SplitPoint b p) (trail st) ->
  In s (successors (fn st) p) ->
  startsWithBarrier (body (fn st) s) = true.
Proof.
  intros H Hp Hs. destruct (splitFacts_run _ _ H) as [GK [_ Spl]].
  destruct (Spl _ _ Hp) as (SW & _). apply SW.
  unfold successors in *. rewrite <- (graphKept_terminators GK p). exact Hs.
Qed.

(** X8: every split point a run finds for a barrier [b] is a block other
    than [b] that [b] does not post-dominate, reached from a predecessor of
    [b] by climbing along edges that are not back edges out of blocks that
    [b] post-dominates; when the predecessor lists mirror the successor
    lists, a walk along the edges leads from the split point to [b]. *)
Theorem split_points_are_forward_ancestors
        (fuel : nat) (F : Function) (st : pass_state) (b p : block_id) :
  runOnFunction' fuel F = Ok st ->
  In (SplitPoint b p) (trail st) ->
  PDT_dominates b p = false
  /\ p <> b
  /\ (exists y, In y (preds F b) /\ DT_dominates b y = false
                /\ climb' F b y p)
  /\ ((forall x q, In q (preds F x) -> In x (successors F q)) -> walk F p b).
Proof.
  intros H Hp. destruct (splitFacts_run _ _ H) as [_ [_ Spl]].
  destruct (Spl _ _ Hp) as (_ & PD & Hne & y & Hin & D & C).
  repeat split; eauto.
  intros Edge. apply walk_edge with y; auto.
  apply (climb_walk Edge C).
Qed.

(** X9: a block that starts with a barrier marker when the pass is entered
    is never written to: it comes out with the same instruction list and no
    marker is inserted into it. *)
Theorem barrier_headed_blocks_untouched
        (fuel : nat) (F : Function) (st : pass_state) (x : block_id) :
  runOnFunction' fuel F = Ok st ->
  startsWithBarrier (body F x) = true ->
  body (fn st) x = body F x /\ ~ In (Injected x) (trail st).
Proof.
  intros H SW. destruct (splitFacts_run _ _ H) as [(_ & _ & Story) _].
  destruct (Story x) as [[N B]|(_ & SW' & _)]; [auto | congruence].
Qed.

End SplitPoints.

(** ** Well-formed functions in which every block is reachable *)

Lemma path_end (F : Function) (a x y : block_id) : path F a x y -> y <> a.
Proof. intros P. induction P; assumption. Qed.

Lemma path_walk (F : Function) (a x y : block_id) : path F a x y -> walk F x y.
Proof.
  intros P. induction P as [x Hx|x y z Hx Hy _ IH].
  - apply walk_here.
  - clear Hx. induction IH as [|u v _ IHw Hv].
    + apply walk_edge with x; [apply walk_here | exact Hy].
    + apply walk_edge with u; auto.
Qed.

(** A block other than the start of a walk is entered, on the walk, over an
    edge from a block that the walk reached without passing through it. *)
Lemma forward_edge_exists (F : Function) (e x : block_id) :
  walk F e x -> x <> e ->
  exists p, In x (successors F p) /\ path F x e p.
Proof.
  intros W Hne.
  assert (A : forall y, walk F e y ->
                        path F x e y
                        \/ exists p, In x (successors F p) /\ path F x e p).
  { intros y Wy. induction Wy as [|y z Wy IH Hz].
    - left. apply path_here. congruence.
    - destruct IH as [P|Found]; [|right; exact Found].
      destruct (Nat.eq_dec z x) as [->|Hzx].
      + right. exists y. auto.
      + left. apply path_snoc with y; auto. }
  destruct (A x W) as [P|Found]; [|exact Found].
  apply path_end in P. contradiction.
Qed.

Lemma wellFormed_facts (F : Function) :
  wellFormed F = true ->
  In (getEntryBlock F) (layout F)
  /\ preds F (getEntryBlock F) = []
  /\ forall x, In x (layout F) ->
               getTerminator (body F x) <> None
               /\ (forall y, In y (successors F x) -> In y (layout F))
               /\ (forall p, In p (preds F x) -> In p (layout F))
               /\ (forall p, In p (layout F) ->
                             (In p (preds F x) <-> In x (successors F p))).
Proof.
  unfold wellFormed, getEntryBlock.
  destruct (layout F) as [|entry rest] eqn:L; [discriminate|].
  rewrite !andb_true_iff. intros [[_ HP] HA]. simpl hd.
  split; [simpl; auto|]. split.
  { destruct (preds F entry); [reflexivity | discriminate]. }
  rewrite forallb_forall in HA. intros x Hx.
  specialize (HA x Hx). rewrite !andb_true_iff in HA.
  destruct HA as [[HT HPs] HC].
  rewrite forallb_forall in HPs, HC.
  split; [|split; [|split]].
  - destruct (getTerminator (body F x)); [discriminate | discriminate HT].
  - intros y Hy. unfold successors in Hy.
    destruct (getTerminator (body F x)) as [succs|]; [|destruct Hy].
    rewrite forallb_forall in HT. apply mem_In, HT, Hy.
  - intros p Hp. apply mem_In, HPs, Hp.
  - intros p Hp. specialize (HC p Hp). apply Nat.eqb_eq in HC.
    rewrite (count_occ_In Nat.eq_dec (preds F x) p).
    rewrite (count_occ_In Nat.eq_dec (successors F p) x).
    rewrite HC. reflexivity.
Qed.

Lemma walk_in_layout (F : Function) (x : block_id) :
  wellFormed F = true -> walk F (getEntryBlock F) x -> In x (layout F).
Proof.
  intros WF W. destruct (wellFormed_facts F WF) as (He & _ & Hall).
  induction W as [|y z _ IH Hz]; auto.
  destruct (Hall y IH) as (_ & Succ & _). apply Succ, Hz.
Qed.

Lemma allReachable_walks (F : Function) (x : block_id) :
  allReachable F = true -> In x (layout F) -> walk F (getEntryBlock F) x.
Proof.
  unfold allReachable. rewrite forallb_forall. intros R Hx.
  apply path_walk with (fresh F), reach_sound, mem_In, R, Hx.
Qed.

Section WellFormedRuns.

Variable DT_dominates : block_id -> block_id -> bool.
Variable PDT_dominates : block_id -> block_id -> bool.
Variable isKernelToProcess : Function -> bool.
Variable hasBarrier : list instruction -> bool.
Variable isBarrierBlock : list instruction -> bool.

Local Abbreviation fnbp' := (firstNonBackedgePredecessor DT_dominates).
Local Abbreviation traceLoop' :=
  (traceLoop DT_dominates PDT_dominates isBarrierBlock).
Local Abbreviation tracePos' :=
  (tracePos DT_dominates PDT_dominates isBarrierBlock).
Local Abbreviation processBarrier' :=
  (processBarrier DT_dominates PDT_dominates isBarrierBlock).
Local Abbreviation processAll' :=
  (processAll DT_dominates PDT_dominates isBarrierBlock).
Local Abbreviation conditionalBarriers' :=
  (conditionalBarriers PDT_dominates hasBarrier).
Local Abbreviation runOnFunction' :=
  (runOnFunction DT_dominates PDT_dominates isKernelToProcess
                 hasBarrier isBarrierBlock).

Variable F : Function.

Hypothesis WF : wellFormed F = true.

(** What the dominator tree says of blocks of the function is true. *)
Hypothesis DT_sound :
  forall a b, In a (layout F) -> In b (layout F) ->
              DT_dominates a b = true -> Dominates F a b.

(** Some predecessor of a reachable block is not dominated by it. *)
Lemma forward_predecessor_exists (x : block_id) :
  walk F (getEntryBlock F) x -> x <> getEntryBlock F ->
  exists p, In p (preds F x) /\ In p (layout F) /\ DT_dominates x p = false.
Proof.
  intros W Hne.
  destruct (wellFormed_facts F WF) as (He & _ & Hall).
  pose proof (walk_in_layout WF W) as Hx.
  destruct (forward_edge_exists W Hne) as (p & Hedge & P).
  assert (Hp : In p (layout F)) by (apply (walk_in_layout WF), (path_walk P)).
  exists p. destruct (Hall x Hx) as (_ & _ & _ & Mirror).
  split; [apply Mirror; auto|]. split; [exact Hp|].
  destruct (DT_dominates x p) eqn:D; [|reflexivity].
  exfalso. destruct (DT_sound Hx Hp D) as [->|N]; [|exact (N P)].
  apply path_end in P. contradiction.
Qed.

(** X10: in a well-formed function, for a reachable block other than the
    entry block the scan neither returns NULL nor reads past the end: it
    returns a predecessor, a block of the function, that the scanned block
    does not dominate. *)
Theorem scan_finds_predecessor_of_reachable_block (x : block_id) :
  walk F (getEntryBlock F) x -> x <> getEntryBlock F ->
  exists p, fnbp' F x = Ok (Some p)
            /\ In p (preds F x) /\ In p (layout F)
            /\ DT_dominates x p = false.
Proof.
  intros W Hne.
  destruct (forward_predecessor_exists W Hne) as (p & Hp & _ & D).
  destruct (skipBackedges_some DT_dominates x p (preds F x) Hp D)
    as (q & rest & S).
  assert (FN : fnbp' F x = Ok (Some q)).
  { unfold firstNonBackedgePredecessor.
    destruct (preds F x) as [|r It] eqn:E; [destruct Hp|].
    rewrite S. reflexivity. }
  exists q. split; [exact FN|].
  apply firstNonBackedgePredecessor_found in FN as [Hq Dq].
  destruct (wellFormed_facts F WF) as (_ & _ & Hall).
  destruct (Hall x (walk_in_layout WF W)) as (_ & _ & Pin & _).
  auto.
Qed.

Hypothesis Reach : allReachable F = true.

(** The post-dominator tree knows that the entry block post-dominates
    itself. *)
Hypothesis PDT_entry :
  PDT_dominates (getEntryBlock F) (getEntryBlock F) = true.

Lemma scan_ok (F' : Function) (y : block_id) :
  preds F' = preds F -> In y (layout F) -> y <> getEntryBlock F ->
  exists q, fnbp' F' y = Ok (Some q)
            /\ In q (preds F y) /\ In q (layout F)
            /\ DT_dominates y q = false.
Proof.
  intros E Hy Hne.
  destruct (@forward_predecessor_exists y (@allReachable_walks F y Reach Hy) Hne)
    as (p & Hp & _ & D).
  destruct (skipBackedges_some DT_dominates y p (preds F y) Hp D)
    as (q & rest & S).
  assert (FN : fnbp' F' y = Ok (Some q)).
  { unfold firstNonBackedgePredecessor. rewrite E.
    destruct (preds F y) as [|r It] eqn:EP; [destruct Hp|].
    rewrite S. reflexivity. }
  exists q. split; [exact FN|].
  apply firstNonBackedgePredecessor_found in FN as [Hq Dq].
  rewrite E in Hq.
  destruct (wellFormed_facts F WF) as (_ & _ & Hall).
  destruct (Hall y Hy) as (_ & _ & Pin & _).
  auto.
Qed.

(** The numbers of the blocks go down along every edge that is not a back
    edge. *)
Variable rank : block_id -> nat.

Hypothesis Down :
  forall x p, In x (layout F) -> In p (preds F x) ->
              DT_dominates x p = false -> rank p < rank x.

Section OneBarrier.

Variable b : block_id.

Hypothesis In_function : In b (layout F).

Hypothesis Conditional : PDT_dominates b (getEntryBlock F) = false.

Lemma conditional_not_entry : b <> getEntryBlock F.
Proof. intros ->. congruence. Qed.

Lemma traceLoop_safe (F' : Function) :
  preds F' = preds F ->
  forall fuel y,
    In y (layout F) ->
    traceLoop' fuel F' b (Some y) = OutOfFuel
    \/ exists p, traceLoop' fuel F' b (Some y) = Ok (Some p) /\ In p (layout F).
Proof.
  intros E. induction fuel as [|fuel IH]; intros y Hy; [left; reflexivity|].
  simpl. destruct (isBarrierBlock (body F' y)); simpl; [right; eauto|].
  destruct (PDT_dominates b y) eqn:PD; simpl; [|right; eauto].
  assert (Hne : y <> getEntryBlock F) by (intros ->; congruence).
  destruct (@scan_ok F' y E Hy Hne) as (q & -> & _ & Hq & _). simpl.
  destruct (Nat.eqb q b); [right; eauto | apply IH, Hq].
Qed.

(** X11: in a well-formed function whose blocks are all reachable, with a
    dominator tree that tells the truth, the trace of a conditional barrier
    never faults: for any fuel it is still running or has returned a block
    of the function. *)
Theorem trace_never_faults_when_reachable (fuel : nat) :
  tracePos DT_dominates PDT_dominates isBarrierBlock fuel F b = OutOfFuel
  \/ exists p,
      tracePos DT_dominates PDT_dominates isBarrierBlock fuel F b = Ok (Some p)
      /\ In p (layout F).
Proof.
  unfold tracePos.
  destruct (@scan_ok F b eq_refl In_function conditional_not_entry)
    as (y & -> & _ & Hy & _).
  simpl. apply traceLoop_safe; auto.
Qed.

Lemma traceLoop_total (F' : Function) :
  preds F' = preds F ->
  forall fuel y,
    In y (layout F) -> rank y + 1 < fuel ->
    exists p, traceLoop' fuel F' b (Some y) = Ok (Some p)
              /\ In p (layout F) /\ rank p <= rank y.
Proof.
  intros E. induction fuel as [|fuel IH]; intros y Hy Hf; [lia|].
  simpl. destruct (isBarrierBlock (body F' y)); simpl; [eauto|].
  destruct (PDT_dominates b y) eqn:PD; simpl; [|eauto].
  assert (Hne : y <> getEntryBlock F) by (intros ->; congruence).
  destruct (@scan_ok F' y E Hy Hne) as (q & -> & Hin & Hq & D). simpl.
  pose proof (Down Hy Hin D) as R.
  destruct (Nat.eqb q b).
  - exists q. repeat split; auto. lia.
  - destruct (IH q Hq) as (p & -> & Hp & Rp); [lia|].
    exists p. repeat split; auto. lia.
Qed.

Lemma tracePos_total (F' : Function) (fuel : nat) :
  preds F' = preds F ->
  rank b + 1 < fuel ->
  exists p, tracePos' fuel F' b = Ok (Some p)
            /\ In p (layout F) /\ rank p < rank b.
Proof.
  intros E Hf. unfold tracePos.
  destruct (@scan_ok F' b E In_function conditional_not_entry)
    as (y & -> & Hin & Hy & D).
  simpl. pose proof (Down In_function Hin D) as R.
  destruct (@traceLoop_total F' E fuel y Hy) as (p & -> & Hp & Rp);
    [lia|].
  exists p. repeat split; auto. lia.
Qed.

(** X12: if moreover the block numbers go down along every edge that is
    not a back edge (the function is reducible), then with fuel above the
    number of the barrier the trace returns a split point: a block of the
    function other than the barrier that is a barrier block or is not
    post-dominated by the barrier.  The self-cycle exit of line 134 is
    never taken. *)
Theorem trace_returns_when_reducible (fuel : nat) :
  rank b + 1 < fuel ->
  exists p,
    tracePos DT_dominates PDT_dominates isBarrierBlock fuel F b = Ok (Some p)
    /\ In p (layout F)
    /\ p <> b
    /\ (isBarrierBlock (body F p) = true \/ PDT_dominates b p = false).
Proof.
  intros Hf. destruct (@tracePos_total F fuel eq_refl Hf) as (p & T & Hp & R).
  exists p. split; [exact T|]. split; [exact Hp|].
  assert (Hne : p <> b) by (intros ->; lia).
  split; [exact Hne|].
  apply tracePos_climbs in T as [[E|[E|E]] _]; [left; exact E| right; exact E|].
  contradiction.
Qed.

Lemma processBarrier_total (fuel : nat) (st : pass_state) :
  graphKept F st ->
  rank b + 1 < fuel ->
  exists st', processBarrier' fuel b st = Ok st'.
Proof.
  intros GK Hf. pose proof GK as (_ & P & _).
  destruct (@tracePos_total (fn st) fuel P Hf) as (p & T & Hp & _).
  unfold processBarrier. rewrite T. simpl.
  destruct (isBarrierBlock (body (fn st) p) || Nat.eqb p b); [eauto|].
  destruct (wellFormed_facts F WF) as (_ & _ & Hall).
  pose proof (@graphKept_terminators F st GK) as GT.
  destruct (Hall p Hp) as (Tp & Succ & _).
  rewrite GT. unfold successors in Succ.
  destruct (getTerminator (body F p)) as [succs|]; [|congruence].
  destruct (injectLoop_total succs (fn st)) as [r ->]; [|simpl; eauto].
  intros s Hs. apply getTerminator_head. rewrite GT.
  destruct (Hall s (Succ s Hs)) as (Ts & _). exact Ts.
Qed.

End OneBarrier.

Lemma processAll_total (fuel : nat) :
  forall bs st,
    graphKept F st ->
    (forall b, In b bs ->
               In b (layout F)
               /\ PDT_dominates b (getEntryBlock F) = false
               /\ rank b + 1 < fuel) ->
    exists st', processAll' fuel bs st = Ok st'.
Proof.
  induction bs as [|b bs IH]; intros st GK H; simpl; [eauto|].
  destruct (H b (or_introl eq_refl)) as (Hb & C & Hf).
  destruct (@processBarrier_total b Hb C fuel st GK Hf) as [st1 E].
  rewrite E. simpl.
  apply IH.
  - eapply graphKept_step; eauto.
  - intros b' Hb'. apply H. right. exact Hb'.
Qed.

(** X13: on a well-formed, reducible function whose blocks are all
    reachable, with a dominator tree that tells the truth, the pass comes
    to an end without a fault as soon as the fuel is above the numbers of
    the blocks. *)
Theorem runOnFunction_returns_when_reducible (fuel : nat) :
  (forall x, In x (layout F) -> rank x + 1 < fuel) ->
  exists st,
    runOnFunction DT_dominates PDT_dominates isKernelToProcess
                  hasBarrier isBarrierBlock fuel F = Ok st.
Proof.
  intros Hf. unfold runOnFunction.
  destruct (isKernelToProcess F); simpl; [|eauto].
  destruct (Nat.eqb (length (conditionalBarriers' F)) 0); [eauto|].
  apply processAll_total; [apply graphKept_initial|].
  intros b Hb. rewrite conditionalBarriers_filter, filter_In in Hb.
  destruct Hb as [Hb C]. unfold isConditional in C.
  apply andb_true_iff in C as [_ C]. apply negb_true_iff in C.
  auto.
Qed.

End WellFormedRuns.

(** ** Termination of the trace from the shape of the edges alone *)

(** X14: when the numbers of the blocks go down along every edge that is
    not a back edge, the trace of a barrier is over within as many rounds as
    the number of the barrier: it has returned a barrier block, a block the
    barrier does not post-dominate, or the barrier itself, or it has
    stopped in a fault; it does not go on. *)
Theorem trace_ends_when_forward_edges_descend
        (DT_dominates PDT_dominates : block_id -> block_id -> bool)
        (isBarrierBlock : list instruction -> bool)
        (rank : block_id -> nat) (F : Function) (b : block_id) (fuel : nat) :
  (forall x p, In p (preds F x) -> DT_dominates x p = false ->
               rank p < rank x) ->
  rank b < fuel ->
  traceEnd PDT_dominates isBarrierBlock F b
           (tracePos DT_dominates PDT_dominates isBarrierBlock fuel F b).
Proof.
  intros Down Hf. unfold tracePos.
  destruct (firstNonBackedgePredecessor DT_dominates F b) as [[y|]| |] eqn:FN;
    simpl.
  - apply firstNonBackedgePredecessor_found in FN as [Hin D].
    pose proof (Down _ _ Hin D) as R.
    apply traceLoop_ends_when_reducible with (DT_dominates := DT_dominates)
                                             (rank := rank); auto.
    lia.
  - destruct fuel; [lia | exact I].
  - exact I.
  - apply firstNonBackedgePredecessor_no_fuel in FN. exact FN.
Qed.

(** ** The further properties at work on scenarios B and C *)

Lemma loopBypass_DT_sound (a b : block_id) :
  In a (layout loopBypass) -> In b (layout loopBypass) ->
  dominates_ref loopBypass a b = true -> Dominates loopBypass a b.
Proof.
  intros Ha Hb D.
  assert (C : searchesComplete loopBypass = true) by (vm_compute; reflexivity).
  apply (searchesComplete_exact loopBypass C a b Ha Hb), D.
Qed.

Lemma loopBypass_down (x p : block_id) :
  In x (layout loopBypass) -> In p (preds loopBypass x) ->
  dominates_ref loopBypass x p = false -> p < x.
Proof.
  intros Hx Hp D. simpl in Hx.
  repeat (destruct Hx as [<-|Hx]); try contradiction; simpl in Hp;
    repeat (destruct Hp as [<-|Hp]); try contradiction; try lia.
  vm_compute in D. discriminate D.
Qed.

Lemma scan_returns_first_forward_predecessor_witness :
  preds loopBypass 1 = [1; 0]
  /\ firstNonBackedgePredecessor (dominates_ref loopBypass) loopBypass 1
     = Ok (Some 0).
Proof.
  split; [reflexivity|].
  apply (proj2 (@scan_returns_first_forward_predecessor
                  (dominates_ref loopBypass) loopBypass 1 0)).
  exists [1], []. split; [reflexivity|]. split.
  - intros q [<-|[]]. vm_compute. reflexivity.
  - vm_compute. reflexivity.
Defined.

Lemma successor_loop_reaches_fixed_point_witness :
  injectLoop diamondUnsafe [2; 3] = Ok (fn diamondRepaired, [Injected 3])
  /\ (forall s, In s [2; 3] ->
                startsWithBarrier (body (fn diamondRepaired) s) = true)
  /\ injectLoop (fn diamondRepaired) [2; 3] = Ok (fn diamondRepaired, []).
Proof.
  split; [vm_compute; reflexivity|].
  apply (@successor_loop_reaches_fixed_point
           [2; 3] diamondUnsafe (fn diamondRepaired) [Injected 3]).
  vm_compute. reflexivity.
Defined.

Lemma successor_loop_order_irrelevant_witness :
  injectLoop diamondUnsafe [3; 2; 3] = Ok (fn diamondRepaired, [Injected 3])
  /\ (forall x, body (fn diamondRepaired) x = body (fn diamondRepaired) x)
  /\ layout (fn diamondRepaired) = layout (fn diamondRepaired)
  /\ preds (fn diamondRepaired) = preds (fn diamondRepaired)
  /\ (forall s, In (Injected s) [Injected 3] <-> In (Injected s) [Injected 3]).
Proof.
  split; [vm_compute; reflexivity|].
  apply (@successor_loop_order_irrelevant
           [2; 3] [3; 2; 3] diamondUnsafe
           (fn diamondRepaired) (fn diamondRepaired)
           [Injected 3] [Injected 3]).
  - intros x. simpl. tauto.
  - vm_compute. reflexivity.
  - vm_compute. reflexivity.
Defined.

Lemma trace_returns_forward_ancestor_witness :
  exists y p,
    Some 0 = Some p
    /\ In y (preds loopBypass 2) /\ dominates_ref loopBypass 2 y = false
    /\ climb (dominates_ref loopBypass) (postdominates_ref loopBypass)
             loopBypass 2 y p
    /\ (startsWithBarrier (body loopBypass p) = true
        \/ postdominates_ref loopBypass 2 p = false \/ p = 2).
Proof.
  apply (@trace_returns_forward_ancestor
           (dominates_ref loopBypass) (postdominates_ref loopBypass)
           startsWithBarrier 6 loopBypass 2 (Some 0)).
  vm_compute. reflexivity.
Defined.

Lemma markers_only_below_split_points_witness :
  body (fn diamondRepaired) 3 <> body diamondUnsafe 3
  /\ exists b p, In (SplitPoint b p) (trail diamondRepaired)
                 /\ In 3 (successors diamondUnsafe p).
Proof.
  split; [vm_compute; discriminate|].
  apply (@markers_only_below_split_points
           (dominates_ref diamondUnsafe) (postdominates_ref diamondUnsafe)
           everyFunction startsWithBarrier startsWithBarrier 6 diamondUnsafe
           diamondRepaired 3).
  - vm_compute. reflexivity.
  - vm_compute. discriminate.
Defined.

Lemma split_point_successors_all_start_with_barrier_witness :
  In (SplitPoint 2 1) (trail diamondRepaired)
  /\ In 3 (successors (fn diamondRepaired) 1)
  /\ startsWithBarrier (body (fn diamondRepaired) 3) = true.
Proof.
  split; [vm_compute; auto|]. split; [vm_compute; auto|].
  apply (@split_point_successors_all_start_with_barrier
           (dominates_ref diamondUnsafe) (postdominates_ref diamondUnsafe)
           everyFunction startsWithBarrier startsWithBarrier 6 diamondUnsafe
           diamondRepaired 2 1 3).
  - vm_compute. reflexivity.
  - vm_compute. auto.
  - vm_compute. auto.
Defined.

Lemma split_points_are_forward_ancestors_witness :
  postdominates_ref diamondUnsafe 2 1 = false
  /\ 1 <> 2
  /\ (exists y, In y (preds diamondUnsafe 2)
                /\ dominates_ref diamondUnsafe 2 y = false
                /\ climb (dominates_ref diamondUnsafe)
                         (postdominates_ref diamondUnsafe) diamondUnsafe 2 y 1)
  /\ ((forall x q, In q (preds diamondUnsafe x) ->
                   In x (successors diamondUnsafe q)) ->
      walk diamondUnsafe 1 2).
Proof.
  apply (@split_points_are_forward_ancestors
           (dominates_ref diamondUnsafe) (postdominates_ref diamondUnsafe)
           everyFunction startsWithBarrier startsWithBarrier 6 diamondUnsafe
           diamondRepaired 2 1).
  - vm_compute. reflexivity.
  - vm_compute. auto.
Defined.

Lemma barrier_headed_blocks_untouched_witness :
  startsWithBarrier (body diamondUnsafe 2) = true
  /\ body (fn diamondRepaired) 2 = body diamondUnsafe 2
  /\ ~ In (Injected 2) (trail diamondRepaired).
Proof.
  split; [reflexivity|].
  apply (@barrier_headed_blocks_untouched
           (dominates_ref diamondUnsafe) (postdominates_ref diamondUnsafe)
           everyFunction startsWithBarrier startsWithBarrier 6 diamondUnsafe
           diamondRepaired 2).
  - vm_compute. reflexivity.
  - reflexivity.
Defined.

Lemma scan_finds_predecessor_of_reachable_block_witness :
  exists p,
    firstNonBackedgePredecessor (dominates_ref loopBypass) loopBypass 1
    = Ok (Some p)
    /\ In p (preds loopBypass 1) /\ In p (layout loopBypass)
    /\ dominates_ref loopBypass 1 p = false.
Proof.
  apply (@scan_finds_predecessor_of_reachable_block
           (dominates_ref loopBypass) loopBypass).
  - vm_compute. reflexivity.
  - exact loopBypass_DT_sound.
  - apply walk_edge with 0; [apply walk_here | simpl; auto].
  - intros E. vm_compute in E. discriminate E.
Defined.

Lemma trace_never_faults_when_reachable_witness :
  tracePos (dominates_ref loopBypass) (postdominates_ref loopBypass)
           startsWithBarrier 6 loopBypass 2 = OutOfFuel
  \/ exists p,
      tracePos (dominates_ref loopBypass) (postdominates_ref loopBypass)
               startsWithBarrier 6 loopBypass 2 = Ok (Some p)
      /\ In p (layout loopBypass).
Proof.
  apply (@trace_never_faults_when_reachable
           (dominates_ref loopBypass) (postdominates_ref loopBypass)
           startsWithBarrier loopBypass).
  - vm_compute. reflexivity.
  - exact loopBypass_DT_sound.
  - vm_compute. reflexivity.
  - vm_compute. reflexivity.
  - simpl. auto.
  - vm_compute. reflexivity.
Defined.

Lemma trace_returns_when_reducible_witness :
  exists p,
    tracePos (dominates_ref loopBypass) (postdominates_ref loopBypass)
             startsWithBarrier 6 loopBypass 2 = Ok (Some p)
    /\ In p (layout loopBypass)
    /\ p <> 2
    /\ (startsWithBarrier (body loopBypass p) = true
        \/ postdominates_ref loopBypass 2 p = false).
Proof.
  apply (@trace_returns_when_reducible
           (dominates_ref loopBypass) (postdominates_ref loopBypass)
           startsWithBarrier loopBypass) with (rank := fun x => x).
  - vm_compute. reflexivity.
  - exact loopBypass_DT_sound.
  - vm_compute. reflexivity.
  - vm_compute. reflexivity.
  - exact loopBypass_down.
  - simpl. auto.
  - vm_compute. reflexivity.
  - lia.
Defined.

Lemma runOnFunction_returns_when_reducible_witness :
  exists st, run 6 loopBypass = Ok st.
Proof.
  apply (@runOnFunction_returns_when_reducible
           (dominates_ref loopBypass) (postdominates_ref loopBypass)
           everyFunction startsWithBarrier startsWithBarrier loopBypass)
    with (rank := fun x => x).
  - vm_compute. reflexivity.
  - exact loopBypass_DT_sound.
  - vm_compute. reflexivity.
  - vm_compute. reflexivity.
  - exact loopBypass_down.
  - intros x Hx. simpl in Hx. lia.
Defined.

Lemma trace_ends_when_forward_edges_descend_witness :
  traceEnd (postdominates_ref loopBypass) startsWithBarrier loopBypass 2
           (tracePos (dominates_ref loopBypass) (postdominates_ref loopBypass)
                     startsWithBarrier 3 loopBypass 2).
Proof.
  apply (@trace_ends_when_forward_edges_descend
           (dominates_ref loopBypass) (postdominates_ref loopBypass)
           startsWithBarrier (fun x => x) loopBypass 2 3).
  - intros x q Hin D.
    destruct x as [|[|[|[|x]]]]; simpl in Hin;
      repeat (destruct Hin as [<-|Hin]); try contradiction; try lia.
    vm_compute in D. discriminate D.
  - lia.
Defined.
